(** * local-sql-agent: the generate / execute / repair loop

    A shallow embedding of [src/llm_client.py], [src/models.py] and
    [src/sql_agent.py].

    - [PyStr]: the Python [str] operations the sources call, on 7-bit text.
    - [PyVal]: the Python values that [json.loads] can produce.
    - [LLMClient]: [_extract_sql_from_response], [generate_sql], [improve_sql].
    - [Models]: the pydantic records of [models.py].
    - [SQLAgent]: [execute_sql], [generate_sql], [improve_sql], [process_query].

    The text-generation endpoint and the database engine are external and
    non-deterministic: they are modelled as transition functions on an
    abstract world state.  [json.loads] is a parameter as well. *)

From Stdlib Require Import ZArith List String Ascii Bool Lia Arith.
From Stdlib Require Import DecimalString.
From Equations Require Import Equations.
From Equations.Prop Require Import Logic.
Import ListNotations.

Local Open Scope list_scope.
Local Open Scope string_scope.

(* ===================================================================== *)
(** ** Python [str] operations *)
(* ===================================================================== *)

Module PyStr.

(** [c.isspace()] on the ASCII range: TAB..CR, FS..US and SPACE. *)
Definition is_space (c : ascii) : bool :=
  let n := nat_of_ascii c in
  ((9 <=? n) && (n <=? 13) || (28 <=? n) && (n <=? 32))%nat.

Definition upper_char (c : ascii) : ascii :=
  let n := nat_of_ascii c in
  if ((97 <=? n) && (n <=? 122))%nat then ascii_of_nat (n - 32) else c.

Definition lower_char (c : ascii) : ascii :=
  let n := nat_of_ascii c in
  if ((65 <=? n) && (n <=? 90))%nat then ascii_of_nat (n + 32) else c.

Fixpoint map_chars (f : ascii -> ascii) (s : string) : string :=
  match s with
  | EmptyString => EmptyString
  | String c s' => String (f c) (map_chars f s')
  end.

(** [s.upper()] and [s.lower()]. *)
Definition upper (s : string) : string := map_chars upper_char s.
Definition lower (s : string) : string := map_chars lower_char s.

(** [s.lstrip()], [s.rstrip()], [s.strip()]. *)
Fixpoint drop_space (l : list ascii) : list ascii :=
  match l with
  | c :: l' => if is_space c then drop_space l' else l
  | [] => []
  end.

Definition strip_chars (l : list ascii) : list ascii :=
  rev (drop_space (rev (drop_space l))).

Definition strip (s : string) : string :=
  string_of_list_ascii (strip_chars (list_ascii_of_string s)).

(** [sub in s]. *)
Fixpoint contains (sub s : string) : bool :=
  prefix sub s ||
  match s with
  | EmptyString => false
  | String _ s' => contains sub s'
  end.

(** [s.startswith(p)] and [s.endswith(p)]. *)
Definition startswith (p s : string) : bool := prefix p s.

Definition rev_string (s : string) : string :=
  string_of_list_ascii (rev (list_ascii_of_string s)).

Definition endswith (p s : string) : bool :=
  prefix (rev_string p) (rev_string s).

(** [s.split(sep)] for a non-empty separator: the pieces between the
    non-overlapping occurrences of [sep], scanning from the left.  [skip]
    counts the characters of a matched separator still to be passed over;
    [cur] holds the current piece, reversed. *)
Fixpoint split_go (sep : string) (skip : nat) (cur : list ascii) (s : string)
  : list string :=
  match s with
  | EmptyString => [string_of_list_ascii (rev cur)]
  | String c s' =>
      match skip with
      | S k => split_go sep k cur s'
      | O =>
          if prefix sep s
          then string_of_list_ascii (rev cur)
               :: split_go sep (String.length sep - 1) [] s'
          else split_go sep 0 (c :: cur) s'
      end
  end.

Definition split (sep s : string) : list string := split_go sep 0 [] s.

(** [sep.join(pieces)]. *)
Fixpoint join (sep : string) (pieces : list string) : string :=
  match pieces with
  | [] => ""
  | [p] => p
  | p :: rest => p ++ sep ++ join sep rest
  end.

(** [s.find(c)] for a one-character needle: index of the first occurrence,
    [-1] when there is none. *)
Fixpoint find_from (c : ascii) (i : Z) (s : string) : Z :=
  match s with
  | EmptyString => (-1)%Z
  | String d s' => if Ascii.eqb c d then i else find_from c (i + 1)%Z s'
  end.

Definition find (c : ascii) (s : string) : Z := find_from c 0%Z s.

(** [s.rfind(c)]: index of the last occurrence, [-1] when there is none. *)
Fixpoint rfind_from (c : ascii) (i : Z) (last : Z) (s : string) : Z :=
  match s with
  | EmptyString => last
  | String d s' =>
      rfind_from c (i + 1)%Z (if Ascii.eqb c d then i else last) s'
  end.

Definition rfind (c : ascii) (s : string) : Z := rfind_from c 0%Z (-1)%Z s.

(** [s[i:j]] for [0 <= i] and [0 <= j]; Python clamps to the length. *)
Definition slice (i j : Z) (s : string) : string :=
  substring (Z.to_nat i) (Z.to_nat (j - i)) s.

(** [s[n:]] and [s[:n]] for a literal [n >= 0]. *)
Fixpoint drop (n : nat) (s : string) : string :=
  match n, s with
  | O, _ => s
  | S _, EmptyString => EmptyString
  | S n', String _ s' => drop n' s'
  end.

Definition take (n : nat) (s : string) : string := substring 0 n s.

(** [s[:-1]]. *)
Definition drop_last (s : string) : string :=
  string_of_list_ascii (removelast (list_ascii_of_string s)).

(** [str(n)] for an [int]. *)
Definition str_of_int (n : Z) : string := NilZero.string_of_int (Z.to_int n).

(** Truth value of a [str]: [not s] holds exactly for the empty string. *)
Definition is_empty (s : string) : bool :=
  match s with EmptyString => true | _ => false end.

(** A character that is neither white space nor [';']. *)
Definition solid (c : ascii) : Prop := is_space c = false /\ c <> ";"%char.

End PyStr.

(* ===================================================================== *)
(** ** Python values and exceptions *)
(* ===================================================================== *)

Module PyVal.

(** The values [json.loads] returns.  A [dict] is kept as its items, one
    per key; a [float] is kept as its literal. *)
#[warnings="-register-all"]
Inductive pyval : Type :=
| PNone
| PBool (b : bool)
| PInt (n : Z)
| PFloat (literal : string)
| PStr (s : string)
| PList (items : list pyval)
| PDict (items : list (string * pyval)).

(** The exception classes that occur in the modelled code. *)
Inductive exn : Type :=
| Exception (msg : string)      (* raised by [get_completion]; bad envelope *)
| JSONDecodeError               (* [json.loads] *)
| TypeError                     (* [in] on a value that is not a container *)
| AttributeError                (* [.get] on a value that is not a dict *)
| IndexError                    (* [l[i]] out of range *)
| SqliteError (msg : string)    (* [sqlite3.Error] *)
| ValidationError               (* pydantic rejects a field *)
| EngineFault (msg : string).   (* raised by the cursor, not a [sqlite3.Error] *)

(** [str(e)].  The parser's own exceptions are swallowed by bare [except]
    clauses, so their text is never read. *)
Definition exn_str (e : exn) : string :=
  match e with
  | Exception msg | SqliteError msg | EngineFault msg => msg
  | _ => ""
  end.

(** [d.get(k, default)] and [k in d] on the items of a [dict]. *)
Fixpoint dict_get (k : string) (items : list (string * pyval)) : option pyval :=
  match items with
  | [] => None
  | (k', v) :: rest => if String.eqb k k' then Some v else dict_get k rest
  end.

Definition dict_has (k : string) (items : list (string * pyval)) : bool :=
  match dict_get k items with Some _ => true | None => false end.

(** [k == x] for a [str] [k]. *)
Definition str_equals (k : string) (x : pyval) : bool :=
  match x with PStr s => String.eqb k s | _ => false end.

(** [k in v] for a [str] [k]: key test on a [dict], element test on a
    [list], substring test on a [str]; the other values are not iterable. *)
Definition py_in (k : string) (v : pyval) : exn + bool :=
  match v with
  | PDict items => inr (dict_has k items)
  | PList items => inr (existsb (str_equals k) items)
  | PStr s => inr (PyStr.contains k s)
  | PNone | PBool _ | PInt _ | PFloat _ => inl TypeError
  end.

(** [v.get(k, default)]: only a [dict] has the method. *)
Definition py_get (k : string) (default : pyval) (v : pyval) : exn + pyval :=
  match v with
  | PDict items =>
      inr (match dict_get k items with Some x => x | None => default end)
  | _ => inl AttributeError
  end.

End PyVal.

(* ===================================================================== *)
(** ** [models.py] *)
(* ===================================================================== *)

Module Models.
Import PyVal.

Module SQLGenerationRequest.
Record t := {
  query : string;
  context : option string }.
End SQLGenerationRequest.

Module SQLGenerationResponse.
Record t := {
  sql_query : string;
  explanation : string }.
End SQLGenerationResponse.

(** A cell of a result row ([Any] in the source). *)
Inductive cell : Type :=
| CNull
| CInt (n : Z)
| CReal (literal : string)
| CText (s : string)
| CBlob (bytes : list ascii).

Module SQLQueryResult.
Record t := {
  columns : list string;
  rows : list (list cell);
  row_count : Z }.
End SQLQueryResult.

Module SQLImprovementAttempt.
Record t := {
  attempt : Z;
  sql : string;
  error : string }.
End SQLImprovementAttempt.

Module SQLAgentResponse.
Record t := {
  natural_query : string;
  generated_sql : string;
  explanation : string;
  query_result : option SQLQueryResult.t;
  error : option string;
  improvement_history : option (list SQLImprovementAttempt.t) }.
End SQLAgentResponse.

(** Validation of a [str] field.  A [str] is kept; [None], a [list] and a
    [dict] are rejected by every pydantic release; whether a number or a
    [bool] is turned into text depends on the release, hence
    [coerce_scalar]. *)
Definition str_field (coerce_scalar : pyval -> option string) (v : pyval)
  : option string :=
  match v with
  | PStr s => Some s
  | PNone | PList _ | PDict _ => None
  | PBool _ | PInt _ | PFloat _ => coerce_scalar v
  end.

(** [SQLGenerationResponse(sql_query=..., explanation=...)]. *)
Definition make_generation_response (coerce_scalar : pyval -> option string)
    (sql_query_arg explanation_arg : pyval) : exn + SQLGenerationResponse.t :=
  match str_field coerce_scalar sql_query_arg,
        str_field coerce_scalar explanation_arg with
  | Some s, Some e =>
      inr {| SQLGenerationResponse.sql_query := s;
             SQLGenerationResponse.explanation := e |}
  | _, _ => inl ValidationError
  end.

End Models.

(* ===================================================================== *)
(** ** The outside world: the generation endpoint and the database *)
(* ===================================================================== *)

Module World.
Import PyVal Models.

(** The chat messages of a request.  Their text is an f-string over exactly
    these arguments: [generate_sql] fills in [query], [schema_info] and the
    optional [error_message]; [improve_sql] fills in all four. *)
Inductive prompt : Type :=
| GeneratePrompt (query schema_info : string) (error_message : option string)
| ImprovePrompt (query schema_info original_sql error_message : string).

(** What [requests.post(...)], [raise_for_status()], [response.json()] and
    the subscripts [['choices'][0]['message']['content']] come to. *)
Inductive http_result : Type :=
| RequestException (msg : string)   (* network failure or non-2xx status *)
| Malformed (msg : string)          (* no [str] at the content path; [msg] is
                                       the text of what the access raises *)
| Content (text : string).

(** What [cursor.execute(sql)] followed by [cursor.fetchall()] and
    [cursor.description] come to.  [description] holds the column names,
    or is [None] as the attribute is; a row holds its values by
    position. *)
Inductive cursor_result : Type :=
| Fetched (description : option (list string)) (rows : list (list cell))
| DbError (msg : string)            (* a [sqlite3.Error] *)
| OtherError (msg : string).        (* any other exception *)

Class Env : Type := {
  world : Type;
  http_post : world -> prompt -> http_result * world;
  cursor_run : world -> string -> cursor_result * world;
  (** [json.loads]; [None] stands for [JSONDecodeError]. *)
  json_loads : string -> option pyval;
  (** pydantic's treatment of a number or [bool] given for a [str] field. *)
  coerce_scalar : pyval -> option string }.

End World.

(* ===================================================================== *)
(** ** [llm_client.py] *)
(* ===================================================================== *)

Module LLMClient.
Import PyStr PyVal.

(** The [dict] the client hands back: keys [sql_query] and [explanation]. *)
Record response_dict := {
  dict_sql_query : pyval;
  dict_explanation : pyval }.

(** What one method of the fallback chain does: it raises (and the bare
    [except] swallows it), it runs to its end without a [return], or it
    returns a dict. *)
Inductive attempt : Type :=
| Raises (e : exn)
| Falls
| Returns (d : response_dict).

Inductive method : Type := Method1 | Method2 | Method3 | Method4 | Method5.

Definition fence : string := "```".
Definition json_fence : string := "```json".
Definition newline : string := String (ascii_of_nat 10) "".

(** [l[i]]. *)
Definition index {A} (l : list A) (i : nat) : exn + A :=
  match nth_error l i with
  | Some x => inr x
  | None => inl IndexError
  end.

Section Parser.

(** [json.loads]: [None] stands for [JSONDecodeError]. *)
Variable json_loads : string -> option pyval.

(** The test and [return] shared by methods 1, 3 and 4:
    [if "sql_query" in result and "explanation" in result: return {...}]. *)
Definition accept_object (result : pyval) : attempt :=
  match py_in "sql_query" result with
  | inl e => Raises e
  | inr false => Falls
  | inr true =>
      match py_in "explanation" result with
      | inl e => Raises e
      | inr false => Falls
      | inr true =>
          match py_get "sql_query" (PStr "") result with
          | inl e => Raises e
          | inr q =>
              match py_get "explanation" (PStr "") result with
              | inl e => Raises e
              | inr x =>
                  Returns {| dict_sql_query := q; dict_explanation := x |}
              end
          end
      end
  end.

Definition loads_and_accept (text : string) : attempt :=
  match json_loads text with
  | None => Raises JSONDecodeError
  | Some result => accept_object result
  end.

(** Method 1: [content.split("```json")[1].split("```")[0].strip()]. *)
Definition method1 (content : string) : attempt :=
  match index (split json_fence content) 1 with
  | inl e => Raises e
  | inr after =>
      match index (split fence after) 0 with
      | inl e => Raises e
      | inr inner => loads_and_accept (strip inner)
      end
  end.

(** Method 2: [content.split("```")[1].split("```")[0].strip()]; both
    branches of the [if] return. *)
Definition method2 (content : string) : attempt :=
  match index (split fence content) 1 with
  | inl e => Raises e
  | inr after =>
      match index (split fence after) 0 with
      | inl e => Raises e
      | inr inner =>
          let code_content := strip inner in
          if startswith "sql" (lower code_content)
          then Returns {| dict_sql_query := PStr (strip (drop 3 code_content));
                          dict_explanation :=
                            PStr "Extracted SQL query from code block" |}
          else Returns {| dict_sql_query := PStr code_content;
                          dict_explanation :=
                            PStr "Extracted SQL query from code block" |}
      end
  end.

(** Method 3: the text from the first ['{'] to the last ['}']. *)
Definition method3 (content : string) : attempt :=
  let start_idx := find "{" content in
  let end_idx := (rfind "}" content + 1)%Z in
  if ((0 <=? start_idx) && (start_idx <? end_idx))%Z
  then loads_and_accept (slice start_idx end_idx content)
  else Falls.

(** Method 4: the whole text. *)
Definition method4 (content : string) : attempt := loads_and_accept content.

(** The [for] loop of method 5, with its [capture] flag and its [break]. *)
Fixpoint capture_lines (lines : list string) (capture : bool) : list string :=
  match lines with
  | [] => []
  | line :: rest =>
      if contains "SELECT" (upper line) || capture
      then line :: (if contains ";" line then [] else capture_lines rest true)
      else capture_lines rest capture
  end.

Definition method5 (content : string) : attempt :=
  if contains "SELECT" (upper content) || contains "FROM" (upper content)
  then
    let lines := split newline content in
    let sql_lines := capture_lines lines false in
    match sql_lines with
    | [] => Falls
    | _ :: _ =>
        let sql_query := strip (join " " sql_lines) in
        let sql_query :=
          if endswith ";" sql_query then drop_last sql_query else sql_query in
        Returns {| dict_sql_query := PStr sql_query;
                   dict_explanation := PStr "Extracted SQL query from text" |}
    end
  else Falls.

(** The last resort. *)
Definition parse_error (content : string) : response_dict :=
  {| dict_sql_query := PStr "";
     dict_explanation :=
       PStr ("Error parsing LLM response: " ++ take 100 content ++ "...") |}.

(** The [if ... elif ...] that opens the chain: method 1 when the text has
    a [```json] fence, otherwise method 2 when it has any fence, otherwise
    neither. *)
Definition fenced_step (content : string) : list (method * attempt) :=
  if contains json_fence content then [(Method1, method1 content)]
  else if contains fence content then [(Method2, method2 content)]
  else [].

(** Runs the methods of [rest] in order until one returns.  The result
    lists the methods that ran, each with what it did. *)
Fixpoint run_methods (content : string)
    (rest : list (method * (string -> attempt))) : list (method * attempt) :=
  match rest with
  | [] => []
  | (m, f) :: rest' =>
      match f content with
      | Returns d => [(m, Returns d)]
      | a => (m, a) :: run_methods content rest'
      end
  end.

Definition returned (steps : list (method * attempt)) : option response_dict :=
  match last steps (Method5, Falls) with
  | (_, Returns d) => Some d
  | _ => None
  end.

(** The methods that run on [content] (already stripped), in order. *)
Definition chain (content : string) : list (method * attempt) :=
  let first := fenced_step content in
  match returned first with
  | Some _ => first
  | None =>
      (first ++ run_methods content
         [(Method3, method3); (Method4, method4); (Method5, method5)])%list
  end.

(** [_extract_sql_from_response]. *)
Definition _extract_sql_from_response (content : string) : response_dict :=
  let content := strip content in
  match returned (chain content) with
  | Some d => d
  | None => parse_error content
  end.

End Parser.

(** The methods the [if ... elif ...] lets in, and the whole order. *)
Definition first_methods (content : string) : list method :=
  if contains json_fence content then [Method1]
  else if contains fence content then [Method2]
  else [].

Definition plan (content : string) : list method :=
  (first_methods content ++ [Method3; Method4; Method5])%list.

Definition run_method (json_loads : string -> option pyval) (m : method)
  : string -> attempt :=
  match m with
  | Method1 => method1 json_loads
  | Method2 => method2
  | Method3 => method3 json_loads
  | Method4 => method4 json_loads
  | Method5 => method5
  end.

(** The method raised, or ended without a [return]. *)
Definition falls_through (a : attempt) : Prop := forall d, a <> Returns d.

Section Client.
Import World.
Context {E : Env}.

(** [get_completion]: a [RequestException] is re-raised as a plain
    [Exception]; the [content] subscripts of the callers are folded in. *)
Definition get_completion (p : prompt) (w : world) : (exn + string) * world :=
  match http_post w p with
  | (RequestException msg, w') =>
      (inl (Exception ("Error communicating with LLM API: " ++ msg)), w')
  | (Malformed msg, w') => (inl (Exception msg), w')
  | (Content text, w') => (inr text, w')
  end.

(** [generate_sql]: the [try] block never lets an exception out. *)
Definition generate_sql (query schema_info : string)
    (error_message : option string) (w : world) : response_dict * world :=
  match get_completion (GeneratePrompt query schema_info error_message) w with
  | (inr content, w') => (_extract_sql_from_response World.json_loads content, w')
  | (inl e, w') =>
      ({| dict_sql_query := PStr "";
          dict_explanation := PStr ("Error generating SQL: " ++ exn_str e) |},
       w')
  end.

(** [improve_sql]. *)
Definition improve_sql (query schema_info original_sql error_message : string)
    (w : world) : response_dict * world :=
  match get_completion
          (ImprovePrompt query schema_info original_sql error_message) w with
  | (inr content, w') => (_extract_sql_from_response World.json_loads content, w')
  | (inl e, w') =>
      ({| dict_sql_query := PStr "";
          dict_explanation := PStr ("Error improving SQL: " ++ exn_str e) |},
       w')
  end.

End Client.

End LLMClient.

(* ===================================================================== *)
(** ** [sql_agent.py] *)
(* ===================================================================== *)

Module SQLAgent.
Import PyStr PyVal Models World.

(** The fields of [self] that [process_query] reads.  The connection and
    the cursor live in the world. *)
Record t := {
  schema_info : string;
  max_retries : Z }.

(** A call either returns or raises. *)
Inductive outcome (A : Type) : Type :=
| Ok (a : A)
| Raised (e : exn).
Arguments Ok {A} a.
Arguments Raised {A} e.

(** What [execute_sql] returns: the pair [(result, error)]. *)
Definition execution : Type := option SQLQueryResult.t * option string.

(** The steps of a run that the properties speak about, in the order they
    happen: a call of [self.generate_sql], [self.execute_sql] or
    [self.improve_sql] with what it came to, and an
    [improvement_history.append]. *)
Inductive event : Type :=
| Generate (r : outcome SQLGenerationResponse.t)
| Execute (sql_query : string) (r : outcome execution)
| Append (a : SQLImprovementAttempt.t)
| Improve (failed_sql error_message : string)
          (r : outcome SQLGenerationResponse.t).

Section Agent.
Context {E : Env}.

(** The state a computation runs in: the world and the log of events. *)
Record machine := {
  now : world;
  trace : list event }.

Definition M (A : Type) : Type := machine -> outcome A * machine.

Definition ret {A} (a : A) : M A := fun m => (Ok a, m).

Definition bind {A B} (c : M A) (k : A -> M B) : M B :=
  fun m =>
    match c m with
    | (Ok a, m') => k a m'
    | (Raised e, m') => (Raised e, m')
    end.

(** Runs [c] and logs the event [ev r] for what it came to. *)
Definition traced {A} (ev : outcome A -> event) (c : M A) : M A :=
  fun m =>
    let (r, m') := c m in
    (r, {| now := now m'; trace := (trace m' ++ [ev r])%list |}).

Definition log (ev : event) : M unit :=
  fun m => (Ok tt, {| now := now m; trace := (trace m ++ [ev])%list |}).

(** A call into the client, which returns a dict, followed by the pydantic
    constructor, which may raise. *)
Definition construct (call : world -> LLMClient.response_dict * world)
  : M SQLGenerationResponse.t :=
  fun m =>
    let (response, w') := call (now m) in
    let m' := {| now := w'; trace := trace m |} in
    match make_generation_response coerce_scalar
            (LLMClient.dict_sql_query response)
            (LLMClient.dict_explanation response) with
    | inr r => (Ok r, m')
    | inl e => (Raised e, m')
    end.

Notation "x <- c ;; k" := (bind c (fun x => k))
  (at level 61, c at next level, right associativity).

(** [generate_sql]. *)
Definition generate_sql (self : t) (request : SQLGenerationRequest.t)
    (error_message : option string) : M SQLGenerationResponse.t :=
  traced Generate
    (construct (LLMClient.generate_sql (SQLGenerationRequest.query request)
                  (schema_info self) error_message)).

(** [improve_sql]. *)
Definition improve_sql (self : t) (natural_query failed_sql error_message : string)
  : M SQLGenerationResponse.t :=
  traced (Improve failed_sql error_message)
    (construct (LLMClient.improve_sql natural_query (schema_info self)
                  failed_sql error_message)).

(** [row[col]] on a [sqlite3.Row]: the value of the first column whose name
    is [col], ASCII case ignored; [IndexError] when there is none. *)
Fixpoint row_get (description : list string) (row : list cell) (col : string)
  : exn + cell :=
  match description, row with
  | name :: description', v :: row' =>
      if String.eqb (lower col) (lower name) then inr v
      else row_get description' row' col
  | _, _ => inl IndexError
  end.

(** A list comprehension whose element expression may raise. *)
Fixpoint comprehension {A B} (f : A -> exn + B) (l : list A) : exn + list B :=
  match l with
  | [] => inr []
  | x :: l' =>
      match f x with
      | inl e => inl e
      | inr y =>
          match comprehension f l' with
          | inl e => inl e
          | inr ys => inr (y :: ys)
          end
      end
  end.

(** The body of [execute_sql] after the cursor has answered. *)
Definition execute_result (r : cursor_result) : outcome execution :=
  match r with
  | DbError msg => Ok (None, Some ("SQL execution error: " ++ msg))
  | OtherError msg => Raised (EngineFault msg)
  | Fetched description rows =>
      match rows with
      | [] =>
          Ok (Some {| SQLQueryResult.columns := [];
                      SQLQueryResult.rows := [];
                      SQLQueryResult.row_count := 0 |}, None)
      | _ :: _ =>
          match description with
          | None => Raised TypeError
          | Some columns =>
              match comprehension
                      (fun row => comprehension (row_get columns row) columns)
                      rows with
              | inl e => Raised e
              | inr row_data =>
                  Ok (Some {| SQLQueryResult.columns := columns;
                              SQLQueryResult.rows := row_data;
                              SQLQueryResult.row_count :=
                                Z.of_nat (List.length row_data) |}, None)
              end
          end
      end
  end.

(** [execute_sql]. *)
Definition execute_sql (sql_query : string) : M execution :=
  traced (Execute sql_query)
    (fun m =>
       let (r, w') := cursor_run (now m) sql_query in
       (execute_result r, {| now := w'; trace := trace m |})).

(** The local variables of [process_query] that the loop reads and writes. *)
Record locals := {
  attempts : Z;
  current_sql : string;
  current_explanation : string;
  result : option SQLQueryResult.t;
  error : option string;
  improvement_history : list SQLImprovementAttempt.t }.

(** How one pass through the loop body ends: at a [break], or at the end
    of the body. *)
Inductive control : Type :=
| Break (st : locals)
| Next (st : locals).

(** [result, error = self.execute_sql(current_sql)]. *)
Definition assign_execution (st : locals) (executed : execution) : locals :=
  {| attempts := attempts st;
     current_sql := current_sql st;
     current_explanation := current_explanation st;
     result := fst executed;
     error := snd executed;
     improvement_history := improvement_history st |}.

(** [improvement_history.append(record)]. *)
Definition append_history (st : locals) (record : SQLImprovementAttempt.t)
  : locals :=
  {| attempts := attempts st;
     current_sql := current_sql st;
     current_explanation := current_explanation st;
     result := result st;
     error := error st;
     improvement_history := (improvement_history st ++ [record])%list |}.

(** The three assignments that end the loop body:
    [current_sql = improved_response.sql_query],
    [current_explanation += f"\n\nImproved SQL (attempt {attempts + 1}): ..."],
    [attempts += 1]. *)
Definition assign_improved (st : locals)
    (improved_response : SQLGenerationResponse.t) : locals :=
  {| attempts := attempts st + 1;
     current_sql := SQLGenerationResponse.sql_query improved_response;
     current_explanation :=
       current_explanation st
       ++ LLMClient.newline ++ LLMClient.newline
       ++ "Improved SQL (attempt " ++ str_of_int (attempts st + 1) ++ "): "
       ++ SQLGenerationResponse.explanation improved_response;
     result := result st;
     error := error st;
     improvement_history := improvement_history st |}.

(** The body of the [while] loop.  [if not error: break] leaves on [None]
    and on the empty string. *)
Definition loop_body (self : t) (natural_query : string) (st : locals)
  : M control :=
  executed <- execute_sql (current_sql st) ;;
  let st := assign_execution st executed in
  match error st with
  | None => ret (Break st)
  | Some msg =>
      if is_empty msg then ret (Break st)
      else
        let record :=
          {| SQLImprovementAttempt.attempt := attempts st + 1;
             SQLImprovementAttempt.sql := current_sql st;
             SQLImprovementAttempt.error := msg |} in
        _ <- log (Append record) ;;
        let st := append_history st record in
        improved_response <-
          improve_sql self natural_query (current_sql st) msg ;;
        if is_empty (SQLGenerationResponse.sql_query improved_response)
           || String.eqb (SQLGenerationResponse.sql_query improved_response)
                (current_sql st)
        then ret (Break st)
        else ret (Next (assign_improved st improved_response))
  end.

(** [while attempts < self.max_retries: ...]. *)
Equations? while_loop (self : t) (natural_query : string) (st : locals)
    (m : machine) : outcome locals * machine
    by wf (Z.to_nat (max_retries self - attempts st)) lt :=
  while_loop self natural_query st m
    with inspect (attempts st <? max_retries self)%Z := {
    | exist _ false _ => (Ok st, m)
    | exist _ true _
        with inspect (loop_body self natural_query st m) := {
        | exist _ (Raised e, m') _ => (Raised e, m')
        | exist _ (Ok (Break st'), m') _ => (Ok st', m')
        | exist _ (Ok (Next st'), m') _ =>
            while_loop self natural_query st' m' } }.
Proof.
  (* the end of the body is reached with the counter one higher *)
  match goal with H : loop_body _ _ _ _ = _ |- _ => revert H end.
  unfold loop_body, bind, ret, log.
  destruct (execute_sql (current_sql st) m) as [[ex|ex] m1]; [|discriminate].
  unfold assign_execution at 1. cbn [error].
  destruct (snd ex) as [msg|]; [|discriminate].
  destruct (is_empty msg); [discriminate|].
  match goal with |- context [improve_sql ?a ?b ?c ?d ?mm] =>
    destruct (improve_sql a b c d mm) as [[ir|ir] m2] end; [|discriminate].
  match goal with |- context [if ?b then _ else _] => destruct b end;
    [discriminate|].
  intros H. inversion H. subst. cbn [attempts assign_improved append_history
    assign_execution]. lia.
Qed.

(** [process_query]. *)
Definition process_query (self : t) (natural_query : string)
  : M SQLAgentResponse.t :=
  let request := {| SQLGenerationRequest.query := natural_query;
                    SQLGenerationRequest.context := None |} in
  sql_response <- generate_sql self request None ;;
  if is_empty (SQLGenerationResponse.sql_query sql_response)
  then
    ret {| SQLAgentResponse.natural_query := natural_query;
           SQLAgentResponse.generated_sql := "";
           SQLAgentResponse.explanation :=
             "Failed to generate SQL: "
             ++ SQLGenerationResponse.explanation sql_response;
           SQLAgentResponse.query_result := None;
           SQLAgentResponse.error := Some "Could not generate SQL query";
           SQLAgentResponse.improvement_history := None |}
  else
    st <- while_loop self natural_query
            {| attempts := 0;
               current_sql := SQLGenerationResponse.sql_query sql_response;
               current_explanation :=
                 SQLGenerationResponse.explanation sql_response;
               result := None;
               error := None;
               improvement_history := [] |} ;;
    ret {| SQLAgentResponse.natural_query := natural_query;
           SQLAgentResponse.generated_sql := current_sql st;
           SQLAgentResponse.explanation := current_explanation st;
           SQLAgentResponse.query_result := result st;
           SQLAgentResponse.error := error st;
           SQLAgentResponse.improvement_history :=
             match improvement_history st with
             | [] => None
             | _ :: _ => Some (improvement_history st)
             end |}.

(** A run of [process_query] from the world [w], with an empty log. *)
Definition run (self : t) (natural_query : string) (w : world)
  : outcome SQLAgentResponse.t * machine :=
  process_query self natural_query {| now := w; trace := [] |}.

End Agent.

(** The attempt history of a response: [improvement_history], with [None]
    read as the empty history. *)
Definition history (r : SQLAgentResponse.t) : list SQLImprovementAttempt.t :=
  match SQLAgentResponse.improvement_history r with
  | Some l => l
  | None => []
  end.

(** The repair calls of a log. *)
Definition is_improve (ev : event) : bool :=
  match ev with Improve _ _ _ => true | _ => false end.

Definition repair_cycles (t : list event) : nat :=
  List.length (filter is_improve t).

(** The records appended in a log, in order. *)
Fixpoint appended (t : list event) : list SQLImprovementAttempt.t :=
  match t with
  | [] => []
  | Append a :: t' => a :: appended t'
  | _ :: t' => appended t'
  end.

End SQLAgent.

(* ===================================================================== *)
(** ** A scripted environment, for concrete runs *)
(* ===================================================================== *)

Module Scripted.
Import PyVal Models World.

(** A decoder for the part of JSON the concrete runs below use: [null],
    [true], [false], integers, strings with the one-character escapes,
    arrays and objects.  It stands in for [json.loads] on those texts only;
    the general theorems hold for every decoder. *)
Definition is_ws (c : ascii) : bool :=
  let n := nat_of_ascii c in
  ((n =? 32) || (n =? 9) || (n =? 10) || (n =? 13))%nat.

Fixpoint skip_ws (s : list ascii) : list ascii :=
  match s with
  | c :: s' => if is_ws c then skip_ws s' else s
  | [] => []
  end.

Definition dquote : ascii := ascii_of_nat 34.

Definition unescape (c : ascii) : option ascii :=
  if Ascii.eqb c dquote then Some dquote
  else
    match c with
    | "\"%char => Some "\"%char
    | "/"%char => Some "/"%char
    | "n"%char => Some (ascii_of_nat 10)
    | "t"%char => Some (ascii_of_nat 9)
    | "r"%char => Some (ascii_of_nat 13)
    | "b"%char => Some (ascii_of_nat 8)
    | "f"%char => Some (ascii_of_nat 12)
    | _ => None
    end.

(** The rest of a string literal, after its opening quote. *)
Fixpoint parse_string (s : list ascii) (acc : list ascii)
  : option (string * list ascii) :=
  match s with
  | [] => None
  | c :: s' =>
      if Ascii.eqb c dquote then Some (string_of_list_ascii (rev acc), s')
      else if Ascii.eqb c "\" then
        match s' with
        | e :: s'' =>
            match unescape e with
            | Some c' => parse_string s'' (c' :: acc)
            | None => None
            end
        | [] => None
        end
      else if (nat_of_ascii c <? 32)%nat then None
      else parse_string s' (c :: acc)
  end.

Definition digit (c : ascii) : option Z :=
  let n := nat_of_ascii c in
  if ((48 <=? n) && (n <=? 57))%nat then Some (Z.of_nat (n - 48)) else None.

Fixpoint parse_digits (s : list ascii) (acc : Z) : Z * list ascii :=
  match s with
  | c :: s' =>
      match digit c with
      | Some d => parse_digits s' (acc * 10 + d)%Z
      | None => (acc, s)
      end
  | [] => (acc, [])
  end.

(** An integer literal: no leading zero, no fraction, no exponent. *)
Definition parse_nat_literal (s : list ascii) : option (Z * list ascii) :=
  match s with
  | c :: s' =>
      match digit c with
      | None => None
      | Some d =>
          let (n, rest) :=
            if (d =? 0)%Z then (0%Z, s') else parse_digits s' d in
          match rest with
          | c' :: _ =>
              if Ascii.eqb c' "." || Ascii.eqb c' "e" || Ascii.eqb c' "E"
              then None
              else match digit c' with Some _ => None | None => Some (n, rest) end
          | [] => Some (n, rest)
          end
      end
  | [] => None
  end.

Fixpoint dict_set (k : string) (v : pyval) (items : list (string * pyval))
  : list (string * pyval) :=
  match items with
  | [] => [(k, v)]
  | (k', v') :: rest =>
      if String.eqb k k' then (k, v) :: rest else (k', v') :: dict_set k v rest
  end.

Fixpoint parse_value (fuel : nat) (s : list ascii) {struct fuel}
  : option (pyval * list ascii) :=
  match fuel with
  | O => None
  | S fuel' =>
      match skip_ws s with
      | "n"%char :: "u"%char :: "l"%char :: "l"%char :: r => Some (PNone, r)
      | "t"%char :: "r"%char :: "u"%char :: "e"%char :: r =>
          Some (PBool true, r)
      | "f"%char :: "a"%char :: "l"%char :: "s"%char :: "e"%char :: r =>
          Some (PBool false, r)
      | "-"%char :: r =>
          match parse_nat_literal r with
          | Some (n, r') => Some (PInt (- n), r')
          | None => None
          end
      | "["%char :: r =>
          match skip_ws r with
          | "]"%char :: r' => Some (PList [], r')
          | _ =>
              (fix items (n : nat) (r : list ascii) (acc : list pyval)
                 : option (pyval * list ascii) :=
                 match n with
                 | O => None
                 | S n' =>
                     match parse_value fuel' r with
                     | Some (v, r1) =>
                         match skip_ws r1 with
                         | ","%char :: r2 => items n' r2 (v :: acc)
                         | "]"%char :: r2 => Some (PList (rev (v :: acc)), r2)
                         | _ => None
                         end
                     | None => None
                     end
                 end) fuel' r []
          end
      | "{"%char :: r =>
          match skip_ws r with
          | "}"%char :: r' => Some (PDict [], r')
          | _ =>
              (fix members (n : nat) (r : list ascii)
                   (acc : list (string * pyval))
                 : option (pyval * list ascii) :=
                 match n with
                 | O => None
                 | S n' =>
                     match skip_ws r with
                     | c :: r0 =>
                         if Ascii.eqb c dquote then
                           match parse_string r0 [] with
                           | Some (k, r1) =>
                               match skip_ws r1 with
                               | ":"%char :: r2 =>
                                   match parse_value fuel' r2 with
                                   | Some (v, r3) =>
                                       match skip_ws r3 with
                                       | ","%char :: r4 =>
                                           members n' r4 (dict_set k v acc)
                                       | "}"%char :: r4 =>
                                           Some (PDict (dict_set k v acc), r4)
                                       | _ => None
                                       end
                                   | None => None
                                   end
                               | _ => None
                               end
                           | None => None
                           end
                         else None
                     | [] => None
                     end
                 end) fuel' r []
          end
      | c :: r =>
          if Ascii.eqb c dquote then
            match parse_string r [] with
            | Some (str, r') => Some (PStr str, r')
            | None => None
            end
          else
            match parse_nat_literal (c :: r) with
            | Some (n, r') => Some (PInt n, r')
            | None => None
            end
      | [] => None
      end
  end.

Definition loads (text : string) : option pyval :=
  let s := list_ascii_of_string text in
  match parse_value (S (List.length s)) s with
  | Some (v, rest) =>
      match skip_ws rest with
      | [] => Some v
      | _ :: _ => None
      end
  | None => None
  end.

(** The world is a script: the replies the endpoint and the cursor will
    give, in order.  A call beyond the script fails. *)
Record script := {
  replies : list http_result;
  answers : list cursor_result }.

Definition scripted_post (w : script) (p : prompt) : http_result * script :=
  match replies w with
  | r :: rest => (r, {| replies := rest; answers := answers w |})
  | [] => (RequestException "connection refused", w)
  end.

Definition scripted_run (w : script) (sql : string) : cursor_result * script :=
  match answers w with
  | a :: rest => (a, {| replies := replies w; answers := rest |})
  | [] => (DbError "database is closed", w)
  end.

(** Numbers and booleans are rejected for a [str] field (pydantic 2). *)
Definition strict : pyval -> option string := fun _ => None.

Definition env : Env := {|
  world := script;
  http_post := scripted_post;
  cursor_run := scripted_run;
  json_loads := loads;
  coerce_scalar := strict |}.

(** The machine at the start of a run. *)
Definition fresh (w : script) : @SQLAgent.machine env :=
  @SQLAgent.Build_machine env w [].

Definition agent (max_retries : Z) : SQLAgent.t :=
  {| SQLAgent.schema_info := "Database Schema:";
     SQLAgent.max_retries := max_retries |}.

Definition quoted (s : string) : string :=
  String dquote s ++ String dquote "".

(** The table name is misspelt, the repair corrects it. *)
Definition typo_then_fixed : script :=
  {| replies := [Content "SELECT * FROM custmers;";
                 Content "SELECT * FROM customers;"];
     answers := [DbError "no such table: custmers";
                 Fetched (Some ["customer_id"; "name"])
                   [[CInt 1; CText "Ann"]; [CInt 2; CText "Bob"]]] |}.

(** The repair repeats the misspelt query. *)
Definition stuck : script :=
  {| replies := [Content "SELECT * FROM custmers;";
                 Content "SELECT * FROM custmers;"];
     answers := [DbError "no such table: custmers"] |}.

(** Every repair misspells the table in a new way. *)
Definition never_right : script :=
  {| replies := [Content "SELECT * FROM custmers;";
                 Content "SELECT * FROM customrs;";
                 Content "SELECT * FROM cusomers;";
                 Content "SELECT * FROM customerz;"];
     answers := [DbError "no such table: custmers";
                 DbError "no such table: customrs";
                 DbError "no such table: cusomers"] |}.

(** The generator answers in prose that holds no query. *)
Definition prose_only : script :=
  {| replies := [Content "I cannot help with that."];
     answers := [] |}.

(** The generator answers with an object whose [sql_query] is [null]. *)
Definition null_sql : script :=
  {| replies := [Content ("{" ++ quoted "sql_query" ++ ": null, "
                          ++ quoted "explanation" ++ ": "
                          ++ quoted "no matching table" ++ "}")];
     answers := [] |}.

(** The endpoint cannot be reached. *)
Definition offline : script := {| replies := []; answers := [] |}.

(** The endpoint is lost after the first generation. *)
Definition cut_off : script :=
  {| replies := [Content "SELECT * FROM custmers;"];
     answers := [DbError "no such table: custmers"] |}.

(** A query that matches no row. *)
Definition no_match : script :=
  {| replies := [Content "SELECT * FROM customers WHERE 1 = 0;"];
     answers := [Fetched (Some ["customer_id"; "name"]) []] |}.

(** A query that lists two customers. *)
Definition listing : script :=
  {| replies := [];
     answers := [Fetched (Some ["customer_id"; "name"])
                   [[CInt 1; CText "Ann"]; [CInt 2; CText "Bob"]]] |}.

(** A join whose first and third columns have the same name. *)
Definition joined : script :=
  {| replies := [];
     answers := [Fetched (Some ["customer_id"; "name"; "Customer_ID"])
                   [[CInt 1; CText "Ann"; CInt 7]]] |}.

Definition question : string := "Show me all customers".

(** The runs of the scenarios, evaluated. *)
Definition typo_run :=
  Eval vm_compute in @SQLAgent.run env (agent 3) question typo_then_fixed.

Definition unexecuted_run :=
  Eval vm_compute in @SQLAgent.run env (agent 0) question typo_then_fixed.

Definition stuck_run :=
  Eval vm_compute in @SQLAgent.run env (agent 3) question stuck.

Definition never_right_run :=
  Eval vm_compute in @SQLAgent.run env (agent 3) question never_right.

(** A [```json] block that does not parse. *)
Definition broken_json_block : string :=
  "```json" ++ LLMClient.newline
  ++ "{" ++ quoted "sql_query" ++ ": SELECT 1" ++ LLMClient.newline
  ++ "```".

(** The same object inside a [```json] block, after a line of prose. *)
Definition null_object : string :=
  "{" ++ quoted "sql_query" ++ ": null, "
  ++ quoted "explanation" ++ ": " ++ quoted "no matching table" ++ "}".

Definition null_in_block : string :=
  "I could not find a table for this." ++ LLMClient.newline
  ++ "```json" ++ LLMClient.newline
  ++ null_object ++ LLMClient.newline
  ++ "```".

(** A query in a block tagged [sql]. *)
Definition sql_block : string :=
  "Here you are:" ++ LLMClient.newline
  ++ "```SQL" ++ LLMClient.newline
  ++ "SELECT name FROM customers;" ++ LLMClient.newline
  ++ "```" ++ LLMClient.newline
  ++ "Anything else?".

(** A query spread over lines of prose. *)
Definition query_in_prose : string :=
  "Here is the query:" ++ LLMClient.newline
  ++ "select name" ++ LLMClient.newline
  ++ "from customers;" ++ LLMClient.newline
  ++ "It lists the names.".

End Scripted.

(* ===================================================================== *)
(** ** What a log shows *)
(* ===================================================================== *)

Module Log.
Import PyStr Models SQLAgent.

Definition is_execute (ev : event) : bool :=
  match ev with Execute _ _ => true | _ => false end.

Definition is_generate (ev : event) : bool :=
  match ev with Generate _ => true | _ => false end.

(** The calls of [execute_sql] and of [generate_sql] in a log. *)
Definition executions (t : list event) : nat :=
  List.length (filter is_execute t).

Definition generations (t : list event) : nat :=
  List.length (filter is_generate t).

(** The test [not improved_response.sql_query or
    improved_response.sql_query == current_sql] of the loop body. *)
Definition no_progress (r : SQLGenerationResponse.t) (failed_sql : string)
  : bool :=
  is_empty (SQLGenerationResponse.sql_query r)
  || String.eqb (SQLGenerationResponse.sql_query r) failed_sql.

(** The text the repairs of a log add to the explanation: one paragraph
    for each repair that changed the SQL, numbered from [n]. *)
Fixpoint improvements (n : Z) (t : list event) : string :=
  match t with
  | [] => ""
  | Improve failed_sql _ (Ok r) :: t' =>
      if no_progress r failed_sql then improvements n t'
      else LLMClient.newline ++ LLMClient.newline
           ++ "Improved SQL (attempt " ++ str_of_int n ++ "): "
           ++ SQLGenerationResponse.explanation r
           ++ improvements (n + 1) t'
  | _ :: t' => improvements n t'
  end.

(** Each record holds SQL that is not empty and differs from the SQL of
    the record before it ([prev]). *)
Fixpoint chained (prev : string) (l : list SQLImprovementAttempt.t) : Prop :=
  match l with
  | [] => True
  | a :: l' =>
      SQLImprovementAttempt.sql a <> ""
      /\ SQLImprovementAttempt.sql a <> prev
      /\ chained (SQLImprovementAttempt.sql a) l'
  end.

End Log.

(* ===================================================================== *)
(** ** The runs of the agent as relations *)
(* ===================================================================== *)

(** What a call, a pass through the loop body, the loop and a whole run can
    log and come to.  The lemmas below show that the functions of
    [SQLAgent] stay inside these relations; the properties are then proved
    by induction on them. *)
Module Steps.
Import PyStr PyVal Models World SQLAgent.

(** What [execute_sql] comes to. *)
Inductive exec_shape : outcome execution -> Prop :=
| shape_rows q : exec_shape (Ok (Some q, None))
| shape_error msg :
    exec_shape (Ok (None, Some ("SQL execution error: " ++ msg)))
| shape_fault msg : exec_shape (Raised (EngineFault msg))
| shape_lookup : exec_shape (Raised IndexError)
| shape_undescribed : exec_shape (Raised TypeError).

(** The exceptions [execute_sql] lets through: what the cursor raises
    that is no [sqlite3.Error], a row without a value for a described
    column, and rows without a description. *)
Definition cursor_exn (e : exn) : Prop :=
  (exists msg, e = EngineFault msg) \/ e = IndexError \/ e = TypeError.

(** The record the loop body appends after a failure with text [msg]. *)
Definition record_of (st : locals) (msg : string) : SQLImprovementAttempt.t :=
  {| SQLImprovementAttempt.attempt := attempts st + 1;
     SQLImprovementAttempt.sql := current_sql st;
     SQLImprovementAttempt.error := msg |}.

(** The locals after a failed execution has been recorded. *)
Definition failed (st : locals) (msg : string) : locals :=
  append_history (assign_execution st (None, Some msg)) (record_of st msg).

(** The events of a failed execution and its repair call. *)
Definition cycle (st : locals) (msg : string)
    (r : outcome SQLGenerationResponse.t) : list event :=
  [Execute (current_sql st) (Ok (None, Some msg));
   Append (record_of st msg);
   Improve (current_sql st) msg r].

(** A repair that makes no progress. *)
Definition stagnates (r : SQLGenerationResponse.t) (failed_sql : string) : Prop :=
  SQLGenerationResponse.sql_query r = ""
  \/ SQLGenerationResponse.sql_query r = failed_sql.

Inductive body_step (st : locals) : list event -> outcome control -> Prop :=
| body_fault e :
    cursor_exn e ->
    body_step st [Execute (current_sql st) (Raised e)] (Raised e)
| body_success q :
    body_step st [Execute (current_sql st) (Ok (Some q, None))]
      (Ok (Break (assign_execution st (Some q, None))))
| body_repair_raised msg :
    msg <> "" ->
    body_step st (cycle st msg (Raised ValidationError))
      (Raised ValidationError)
| body_stagnation msg r :
    msg <> "" ->
    stagnates r (current_sql st) ->
    body_step st (cycle st msg (Ok r)) (Ok (Break (failed st msg)))
| body_next msg r :
    msg <> "" ->
    ~ stagnates r (current_sql st) ->
    body_step st (cycle st msg (Ok r))
      (Ok (Next (assign_improved (failed st msg) r))).

Inductive loop_events (self : SQLAgent.t)
  : locals -> list event -> outcome locals -> Prop :=
| loop_exit st :
    (max_retries self <= attempts st)%Z ->
    loop_events self st [] (Ok st)
| loop_raise st t e :
    (attempts st < max_retries self)%Z ->
    body_step st t (Raised e) ->
    loop_events self st t (Raised e)
| loop_break st t st' :
    (attempts st < max_retries self)%Z ->
    body_step st t (Ok (Break st')) ->
    loop_events self st t (Ok st')
| loop_next st t st' t' out :
    (attempts st < max_retries self)%Z ->
    body_step st t (Ok (Next st')) ->
    loop_events self st' t' out ->
    loop_events self st (t ++ t')%list out.

(** The locals on entry to the loop. *)
Definition entry (g : SQLGenerationResponse.t) : locals :=
  {| attempts := 0;
     current_sql := SQLGenerationResponse.sql_query g;
     current_explanation := SQLGenerationResponse.explanation g;
     result := None;
     error := None;
     improvement_history := [] |}.

(** The response built from the locals after the loop. *)
Definition response (natural_query : string) (st : locals)
  : SQLAgentResponse.t :=
  {| SQLAgentResponse.natural_query := natural_query;
     SQLAgentResponse.generated_sql := current_sql st;
     SQLAgentResponse.explanation := current_explanation st;
     SQLAgentResponse.query_result := result st;
     SQLAgentResponse.error := error st;
     SQLAgentResponse.improvement_history :=
       match improvement_history st with
       | [] => None
       | _ :: _ => Some (improvement_history st)
       end |}.

(** The response when the first generation gave no SQL. *)
Definition no_sql_response (natural_query : string)
    (g : SQLGenerationResponse.t) : SQLAgentResponse.t :=
  {| SQLAgentResponse.natural_query := natural_query;
     SQLAgentResponse.generated_sql := "";
     SQLAgentResponse.explanation :=
       "Failed to generate SQL: " ++ SQLGenerationResponse.explanation g;
     SQLAgentResponse.query_result := None;
     SQLAgentResponse.error := Some "Could not generate SQL query";
     SQLAgentResponse.improvement_history := None |}.

Inductive run_events (self : SQLAgent.t) (natural_query : string)
  : list event -> outcome SQLAgentResponse.t -> Prop :=
| run_rejected :
    run_events self natural_query
      [Generate (Raised ValidationError)] (Raised ValidationError)
| run_no_sql g :
    SQLGenerationResponse.sql_query g = "" ->
    run_events self natural_query
      [Generate (Ok g)] (Ok (no_sql_response natural_query g))
| run_raised g t e :
    SQLGenerationResponse.sql_query g <> "" ->
    loop_events self (entry g) t (Raised e) ->
    run_events self natural_query (Generate (Ok g) :: t) (Raised e)
| run_answered g t st :
    SQLGenerationResponse.sql_query g <> "" ->
    loop_events self (entry g) t (Ok st) ->
    run_events self natural_query
      (Generate (Ok g) :: t) (Ok (response natural_query st)).

(** The attempt numbers [a + 1, ..., a + n]. *)
Definition numbers (a : Z) (n : nat) : list Z :=
  map (fun i => (a + Z.of_nat i)%Z) (seq 1 n).

(** Exactly one of [result] and [error] is set. *)
Definition settled (st : locals) : Prop :=
  error st = None <-> result st <> None.

End Steps.

(* ===================================================================== *)
(** ** Predicates on logs, locals and text used by the further properties *)
(* ===================================================================== *)

Module Forms.
Import PyStr PyVal Models World SQLAgent Steps.

(** An [Execute] event of the log came to what [execute_sql] can come to. *)
Definition shaped (ev : event) : Prop :=
  match ev with
  | Execute _ r => exec_shape r
  | _ => True
  end.

(** How the loop leaves the locals once it has run at least one pass. *)
Definition ended (self : SQLAgent.t) (st' : locals) (t : list event) : Prop :=
  (exists q pre,
      result st' = Some q /\ error st' = None
      /\ t = (pre ++ [Execute (current_sql st') (Ok (Some q, None))])%list)
  \/ (exists msg a hist r pre,
        result st' = None /\ error st' = Some msg
        /\ improvement_history st' = (hist ++ [a])%list
        /\ SQLImprovementAttempt.error a = msg
        /\ t = (pre ++ [Execute (SQLImprovementAttempt.sql a)
                          (Ok (None, Some msg));
                        Append a;
                        Improve (SQLImprovementAttempt.sql a) msg (Ok r)])%list
        /\ ((stagnates r (SQLImprovementAttempt.sql a)
             /\ current_sql st' = SQLImprovementAttempt.sql a)
            \/ (~ stagnates r (SQLImprovementAttempt.sql a)
                /\ current_sql st' = SQLGenerationResponse.sql_query r
                /\ Z.of_nat (List.length (improvement_history st'))
                   = max_retries self))).

(** A list of characters that does not start with white space. *)
Definition clean_head (l : list ascii) : Prop :=
  match l with
  | [] => True
  | c :: _ => is_space c = false
  end.

End Forms.

(* ===================================================================== *)
(** ** The functions stay inside the relations *)
(* ===================================================================== *)

Module Sound.
Import PyStr PyVal Models World SQLAgent Steps.

Lemma is_empty_true (s : string) : is_empty s = true <-> s = "".
Proof. destruct s; simpl; split; congruence. Qed.

Lemma is_empty_false (s : string) : is_empty s = false <-> s <> "".
Proof. destruct s; simpl; split; congruence. Qed.

Lemma comprehension_length {A B} (f : A -> exn + B) (l : list A) ys :
  comprehension f l = inr ys -> List.length ys = List.length l.
Proof.
  revert ys. induction l as [|x l IH]; simpl; intros ys H.
  - inversion H. reflexivity.
  - destruct (f x) as [e|y]; [discriminate|].
    destruct (comprehension f l) as [e|zs]; [discriminate|].
    inversion H. simpl. f_equal. apply IH. reflexivity.
Qed.

Lemma row_get_exn description row col e :
  row_get description row col = inl e -> e = IndexError.
Proof.
  revert row. induction description as [|name d IH]; intros [|v row]; simpl;
    try (intros H; inversion H; reflexivity).
  destruct (String.eqb (lower col) (lower name)); [discriminate|]. apply IH.
Qed.

Lemma comprehension_exn {A B} (f : A -> exn + B) (P : exn -> Prop) l e :
  (forall x e', f x = inl e' -> P e') ->
  comprehension f l = inl e -> P e.
Proof.
  intros Hf. induction l as [|x l IH]; simpl; [discriminate|].
  destruct (f x) as [e'|y] eqn:Hx.
  - intros H. inversion H. subst. eapply Hf. eassumption.
  - destruct (comprehension f l) as [e'|zs]; [|discriminate].
    intros H. inversion H. subst. apply IH. reflexivity.
Qed.

Lemma execute_result_shape (r : cursor_result) : exec_shape (execute_result r).
Proof.
  destruct r as [description rows|msg|msg]; simpl; try constructor.
  destruct rows as [|row rows]; [constructor|].
  destruct description as [columns|]; [|constructor].
  match goal with |- context [comprehension ?f ?l] =>
    destruct (comprehension f l) as [e|row_data] eqn:Hc end;
    [|constructor].
  assert (e = IndexError) as ->; [|constructor].
  revert Hc. apply (comprehension_exn _ (fun e => e = IndexError)).
  intros x e' Hx.
  revert Hx. apply (comprehension_exn _ (fun e => e = IndexError)).
  intros c e''. apply row_get_exn.
Qed.

Section Facts.
Context {E : Env}.

Lemma traced_effect {A} (ev : outcome A -> event) (c : M A) m r m' :
  traced ev c m = (r, m') ->
  exists m1, c m = (r, m1) /\ now m' = now m1
             /\ trace m' = (trace m1 ++ [ev r])%list.
Proof.
  unfold traced. destruct (c m) as [r1 m1]. intros H. inversion H. subst.
  exists m1. auto.
Qed.

Lemma construct_effect call m r m' :
  construct call m = (r, m') ->
  trace m' = trace m /\ forall e, r = Raised e -> e = ValidationError.
Proof.
  unfold construct, make_generation_response.
  destruct (call (now m)) as [d w'].
  destruct (str_field coerce_scalar (LLMClient.dict_sql_query d));
    [destruct (str_field coerce_scalar (LLMClient.dict_explanation d))|];
    intros H; inversion H; subst; simpl; split; auto; congruence.
Qed.

Lemma generate_sql_effect self request err m r m' :
  generate_sql self request err m = (r, m') ->
  trace m' = (trace m ++ [Generate r])%list
  /\ forall e, r = Raised e -> e = ValidationError.
Proof.
  unfold generate_sql. intros H.
  apply traced_effect in H. destruct H as (m1 & Hc & _ & Ht).
  apply construct_effect in Hc. destruct Hc as [Ht1 He].
  rewrite Ht, Ht1. auto.
Qed.

Lemma improve_sql_effect self nq failed_sql msg m r m' :
  improve_sql self nq failed_sql msg m = (r, m') ->
  trace m' = (trace m ++ [Improve failed_sql msg r])%list
  /\ forall e, r = Raised e -> e = ValidationError.
Proof.
  unfold improve_sql. intros H.
  apply traced_effect in H. destruct H as (m1 & Hc & _ & Ht).
  apply construct_effect in Hc. destruct Hc as [Ht1 He].
  rewrite Ht, Ht1. auto.
Qed.

Lemma execute_sql_effect sql m r m' :
  execute_sql sql m = (r, m') ->
  trace m' = (trace m ++ [Execute sql r])%list /\ exec_shape r.
Proof.
  unfold execute_sql. intros H.
  apply traced_effect in H. destruct H as (m1 & Hc & _ & Ht).
  destruct (cursor_run (now m) sql) as [c w'].
  inversion Hc. subst. simpl in Ht. split; [assumption|].
  apply execute_result_shape.
Qed.

Lemma loop_body_sound self nq st m r m' :
  loop_body self nq st m = (r, m') ->
  exists t, trace m' = (trace m ++ t)%list /\ body_step st t r.
Proof.
  unfold loop_body, bind.
  destruct (execute_sql (current_sql st) m) as [x m1] eqn:Hx.
  apply execute_sql_effect in Hx. destruct Hx as [Ht1 Hshape].
  inversion Hshape as [q Hq|msg Hq|msg Hq|Hq|Hq]; subst x; clear Hshape.
  - (* rows *)
    cbn. intros H. inversion H. subst. eexists. split; [eassumption|].
    constructor.
  - (* a database error *)
    cbn [assign_execution error snd fst].
    set (text := "SQL execution error: " ++ msg) in *.
    assert (Htext : text <> "") by (unfold text; simpl; discriminate).
    apply is_empty_false in Htext as Hne. rewrite Hne.
    unfold log at 1. cbn [now trace].
    match goal with |- context [improve_sql ?a ?b ?c ?d ?mm] =>
      destruct (improve_sql a b c d mm) as [y m2] eqn:Hy end.
    apply improve_sql_effect in Hy. destruct Hy as [Ht2 Hv].
    cbn [now trace append_history current_sql assign_execution] in Ht2.
    assert (Htr : trace m2 = (trace m ++ cycle st text y)%list).
    { rewrite Ht2, Ht1. unfold cycle, record_of.
      rewrite <- !app_assoc. reflexivity. }
    destruct y as [ir|e].
    + destruct (is_empty (SQLGenerationResponse.sql_query ir)
                || String.eqb (SQLGenerationResponse.sql_query ir)
                     (current_sql
                        (append_history
                           (assign_execution st (None, Some text))
                           {| SQLImprovementAttempt.attempt :=
                                attempts (assign_execution st (None, Some text)) + 1;
                              SQLImprovementAttempt.sql :=
                                current_sql (assign_execution st (None, Some text));
                              SQLImprovementAttempt.error := text |})))
        eqn:Hstag;
        cbn [current_sql append_history assign_execution] in Hstag;
        unfold ret; intros H; inversion H; subst; exists (cycle st text (Ok ir));
        (split; [assumption|]).
      * apply body_stagnation; [assumption|].
        apply orb_true_iff in Hstag. destruct Hstag as [Hs|Hs].
        -- left. apply is_empty_true. assumption.
        -- right. apply String.eqb_eq. assumption.
      * apply body_next; [assumption|].
        apply orb_false_iff in Hstag. destruct Hstag as [Hs1 Hs2].
        intros [Hs|Hs].
        -- apply is_empty_false in Hs1. contradiction.
        -- apply String.eqb_neq in Hs2. contradiction.
    + intros H. inversion H. subst.
      rewrite (Hv e eq_refl) in *.
      exists (cycle st text (Raised ValidationError)).
      split; [assumption|]. apply body_repair_raised. assumption.
  - (* the cursor raised something else *)
    intros H. inversion H. subst. eexists. split; [eassumption|].
    constructor. left. eexists. reflexivity.
  - intros H. inversion H. subst. eexists. split; [eassumption|].
    constructor. right. left. reflexivity.
  - intros H. inversion H. subst. eexists. split; [eassumption|].
    constructor. right. right. reflexivity.
Qed.

Lemma while_loop_sound self nq st m out m' :
  while_loop self nq st m = (out, m') ->
  exists t, trace m' = (trace m ++ t)%list /\ loop_events self st t out.
Proof.
  revert out m'.
  funelim (while_loop self nq st m); intros out mm Hrun;
    try match goal with Hb : loop_body _ _ _ _ = _ |- _ =>
      destruct (loop_body_sound _ _ _ _ _ _ Hb) as (t & Ht & Hstep) end;
    try match goal with Hc : (_ <? _)%Z = true |- _ =>
      pose proof (proj1 (Z.ltb_lt _ _) Hc) as Hlt end.
  - (* the condition is false *)
    inversion Hrun. subst.
    exists []. rewrite app_nil_r. split; [reflexivity|].
    apply loop_exit. apply Z.ltb_ge. assumption.
  - (* break *)
    inversion Hrun. subst.
    exists t. split; [assumption|]. apply loop_break; assumption.
  - (* the end of the body: once more *)
    match goal with IH : forall _ _, _ = _ -> _ |- _ =>
      destruct (IH _ _ Hrun) as (t' & Ht' & Hrest) end.
    exists (t ++ t')%list. split.
    + rewrite Ht', Ht. rewrite app_assoc. reflexivity.
    + eapply loop_next; eassumption.
  - (* the body raised *)
    inversion Hrun. subst.
    exists t. split; [assumption|]. apply loop_raise; assumption.
Qed.

Lemma process_query_sound self nq m out m' :
  process_query self nq m = (out, m') ->
  exists t, trace m' = (trace m ++ t)%list /\ run_events self nq t out.
Proof.
  unfold process_query, bind.
  match goal with |- context [generate_sql ?a ?b ?c ?mm] =>
    destruct (generate_sql a b c mm) as [g m1] eqn:Hg end.
  apply generate_sql_effect in Hg. destruct Hg as [Ht1 Hv].
  destruct g as [g|e].
  - destruct (is_empty (SQLGenerationResponse.sql_query g)) eqn:Hq.
    + unfold ret. intros H. inversion H. subst.
      exists [Generate (Ok g)]. split; [assumption|].
      apply run_no_sql. apply is_empty_true. assumption.
    + apply is_empty_false in Hq.
      fold (entry g).
      destruct (while_loop self nq (entry g) m1) as [o m2] eqn:Hloop.
      apply while_loop_sound in Hloop. destruct Hloop as (t & Ht & Hl).
      assert (Htr : trace m2 = (trace m ++ Generate (Ok g) :: t)%list).
      { rewrite Ht, Ht1, <- app_assoc. reflexivity. }
      destruct o as [st|e]; unfold ret; intros H; inversion H; subst;
        exists (Generate (Ok g) :: t); (split; [assumption|]).
      * apply run_answered; assumption.
      * apply run_raised; assumption.
  - intros H. inversion H. subst. rewrite (Hv e eq_refl) in *.
    exists [Generate (Raised ValidationError)]. split; [assumption|].
    apply run_rejected.
Qed.

Lemma run_sound self nq w out m' :
  run self nq w = (out, m') -> run_events self nq (trace m') out.
Proof.
  unfold run. intros H. apply process_query_sound in H.
  destruct H as (t & Ht & Hr). simpl in Ht. rewrite Ht. assumption.
Qed.

End Facts.
End Sound.

(* ===================================================================== *)
(** ** What holds along a run *)
(* ===================================================================== *)

Module Along.
Import PyStr PyVal Models World SQLAgent Steps.

(** Where an element of [l1 ++ l2] sits. *)
Lemma in_app_split {A} (l1 l2 pre post : list A) (a : A) :
  (l1 ++ l2 = pre ++ a :: post)%list ->
  (exists mid, l1 = (pre ++ a :: mid)%list /\ post = (mid ++ l2)%list)
  \/ (exists pre', pre = (l1 ++ pre')%list /\ l2 = (pre' ++ a :: post)%list).
Proof.
  revert pre. induction l1 as [|x l1 IH]; intros pre H.
  - right. exists pre. auto.
  - destruct pre as [|p pre]; simpl in H; inversion H; subst.
    + left. exists l1. auto.
    + destruct (IH _ H2) as [(mid & -> & ->)|(pre' & -> & ->)].
      * left. exists mid. auto.
      * right. exists pre'. auto.
Qed.

Lemma appended_app (t t' : list event) :
  appended (t ++ t') = (appended t ++ appended t')%list.
Proof.
  induction t as [|ev t IH]; [reflexivity|].
  destruct ev; simpl; rewrite IH; reflexivity.
Qed.

Lemma repair_cycles_app (t t' : list event) :
  repair_cycles (t ++ t') = repair_cycles t + repair_cycles t'.
Proof.
  unfold repair_cycles. rewrite filter_app, length_app. reflexivity.
Qed.

(** Case analysis on an event of a body's log. *)
Ltac locate H :=
  match type of H with
  | (_ = ?pre ++ _ :: _)%list =>
      destruct pre as [|? [|? [|? [|? ?]]]]; simpl in H; inversion H; subst
  end.

Lemma numbers_S (a : Z) (n : nat) :
  numbers a (S n) = ((a + 1)%Z :: numbers (a + 1) n).
Proof.
  unfold numbers. simpl. f_equal.
  rewrite <- seq_shift, map_map. apply map_ext. intros i. lia.
Qed.

Section Body.

Variable st : locals.

(** A pass through the body records once per repair call, and at most
    once. *)
Lemma body_appended t out :
  body_step st t out ->
  (appended t = [] /\ repair_cycles t = 0)
  \/ (exists msg, appended t = [record_of st msg] /\ repair_cycles t = 1).
Proof.
  destruct 1; simpl; auto; right; eexists; split; reflexivity.
Qed.

(** The locals a pass leaves behind. *)
Lemma body_break_locals t st' :
  body_step st t (Ok (Break st')) ->
  attempts st' = attempts st
  /\ current_sql st' = current_sql st
  /\ improvement_history st' = (improvement_history st ++ appended t)%list
  /\ ((exists q, result st' = Some q /\ error st' = None
                 /\ t = [Execute (current_sql st) (Ok (Some q, None))])
      \/ (exists msg r, result st' = None /\ error st' = Some msg
                        /\ stagnates r (current_sql st)
                        /\ t = cycle st msg (Ok r))).
Proof.
  intros H. inversion H; subst; simpl.
  - rewrite app_nil_r. repeat split. left. eexists. auto.
  - repeat split. right. exists msg, r. auto.
Qed.

Lemma body_next_locals t st' :
  body_step st t (Ok (Next st')) ->
  attempts st' = (attempts st + 1)%Z
  /\ improvement_history st' = (improvement_history st ++ appended t)%list
  /\ exists msg r,
       result st' = None /\ error st' = Some msg
       /\ ~ stagnates r (current_sql st)
       /\ current_sql st' = SQLGenerationResponse.sql_query r
       /\ t = cycle st msg (Ok r).
Proof.
  intros H. inversion H; subst; simpl.
  repeat split. exists msg, r. auto 10.
Qed.

Lemma body_raised_events t e :
  body_step st t (Raised e) ->
  (cursor_exn e /\ t = [Execute (current_sql st) (Raised e)])
  \/ (e = ValidationError
      /\ exists msg, t = cycle st msg (Raised ValidationError)).
Proof.
  intros H. inversion H; subst; [left|right]; auto.
  split; [reflexivity|]. eexists. reflexivity.
Qed.

End Body.

Section Loop.

Variable self : SQLAgent.t.

Lemma loop_history st t st' :
  loop_events self st t (Ok st') ->
  improvement_history st' = (improvement_history st ++ appended t)%list.
Proof.
  intros H. remember (Ok st') as out eqn:Hout. revert st' Hout.
  induction H as [st Hge|st t e Hlt Hb|st t st1 Hlt Hb
                 |st t st1 t' out Hlt Hb Hrest IH]; intros st' Hout.
  - inversion Hout. subst. simpl. rewrite app_nil_r. reflexivity.
  - discriminate.
  - inversion Hout. subst. apply body_break_locals in Hb. tauto.
  - rewrite (IH _ Hout). apply body_next_locals in Hb.
    destruct Hb as (_ & -> & _). rewrite appended_app, app_assoc.
    reflexivity.
Qed.

Lemma loop_numbers st t out :
  loop_events self st t out ->
  map SQLImprovementAttempt.attempt (appended t)
  = numbers (attempts st) (List.length (appended t)).
Proof.
  induction 1 as [st Hge|st t e Hlt Hb|st t st1 Hlt Hb
                 |st t st1 t' out Hlt Hb Hrest IH].
  - reflexivity.
  - destruct (body_appended _ _ _ Hb) as [[-> _]|(msg & -> & _)];
      [reflexivity|]. simpl. unfold numbers. simpl. f_equal.
  - destruct (body_appended _ _ _ Hb) as [[-> _]|(msg & -> & _)];
      [reflexivity|]. simpl. unfold numbers. simpl. f_equal.
  - apply body_next_locals in Hb.
    destruct Hb as (Ha & _ & msg & r & _ & _ & _ & _ & ->).
    rewrite appended_app. simpl. rewrite numbers_S. f_equal.
    rewrite IH, Ha. reflexivity.
Qed.

Lemma loop_budget st t out :
  loop_events self st t out ->
  List.length (appended t) = repair_cycles t
  /\ ((attempts st <= max_retries self)%Z ->
      (attempts st + Z.of_nat (repair_cycles t) <= max_retries self)%Z).
Proof.
  induction 1 as [st Hge|st t e Hlt Hb|st t st1 Hlt Hb
                 |st t st1 t' out Hlt Hb Hrest IH].
  - simpl. split; [reflexivity|]. unfold repair_cycles. simpl. lia.
  - destruct (body_appended _ _ _ Hb) as [[-> ->]|(msg & -> & ->)];
      simpl; split; lia.
  - destruct (body_appended _ _ _ Hb) as [[-> ->]|(msg & -> & ->)];
      simpl; split; lia.
  - apply body_next_locals in Hb.
    destruct Hb as (Ha & _ & msg & r & _ & _ & _ & _ & ->).
    rewrite appended_app, repair_cycles_app, length_app.
    destruct IH as [IH1 IH2]. rewrite IH1. rewrite Ha in IH2.
    unfold repair_cycles at 1 3. simpl. split; lia.
Qed.

Lemma loop_idle st t out :
  loop_events self st t out ->
  (max_retries self <= attempts st)%Z ->
  t = [] /\ out = Ok st.
Proof.
  destruct 1; intros Hge; try lia. auto.
Qed.

Lemma loop_settled st t st' :
  loop_events self st t (Ok st') ->
  (attempts st < max_retries self)%Z \/ settled st ->
  settled st'.
Proof.
  intros H. remember (Ok st') as out eqn:Hout. revert st' Hout.
  induction H as [st Hge|st t e Hlt Hb|st t st1 Hlt Hb
                 |st t st1 t' out Hlt Hb Hrest IH]; intros st' Hout Hpre.
  - inversion Hout. subst. destruct Hpre as [Hlt|Hs]; [lia|assumption].
  - discriminate.
  - inversion Hout. subst. apply body_break_locals in Hb.
    destruct Hb as (_ & _ & _ & [(q & Hr & He & _)|(msg & r & Hr & He & _)]);
      unfold settled; rewrite Hr, He; split; congruence.
  - apply (IH _ Hout). right. apply body_next_locals in Hb.
    destruct Hb as (_ & _ & msg & r & Hr & He & _).
    unfold settled. rewrite Hr, He. split; congruence.
Qed.

(** A repair that makes no progress is the last event, and the locals
    keep the failure it was called for. *)
Lemma loop_stagnation st t out :
  loop_events self st t out ->
  forall pre sql msg r post,
    t = (pre ++ Improve sql msg (Ok r) :: post)%list ->
    stagnates r sql ->
    post = []
    /\ (exists pre' a,
          pre = (pre' ++ [Execute sql (Ok (None, Some msg)); Append a])%list)
    /\ exists st', out = Ok st'
                   /\ error st' = Some msg /\ result st' = None
                   /\ current_sql st' = sql.
Proof.
  induction 1 as [st Hge|st t e Hlt Hb|st t st1 Hlt Hb
                 |st t st1 t' out Hlt Hb Hrest IH];
    intros pre sql msg r post Ht Hstag.
  - destruct pre; discriminate.
  - apply body_raised_events in Hb.
    destruct Hb as [[_ ->]|(_ & msg' & ->)]; unfold cycle in Ht; locate Ht.
  - apply body_break_locals in Hb.
    destruct Hb as (_ & Hsql & _ & [(q & _ & _ & ->)
                                  |(msg' & r' & Hr & He & _ & ->)]);
      unfold cycle in Ht; locate Ht.
    split; [reflexivity|]. split.
    + exists [], (record_of st msg). reflexivity.
    + exists st1. auto.
  - apply body_next_locals in Hb.
    destruct Hb as (_ & _ & msg' & r' & _ & _ & Hprog & _ & ->).
    apply in_app_split in Ht.
    destruct Ht as [(mid & Hc & ->)|(pre' & -> & ->)].
    + unfold cycle in Hc. locate Hc. contradiction.
    + destruct (IH _ _ _ _ _ eq_refl Hstag)
        as (Hpost & (pre'' & a & ->) & Hst).
      split; [assumption|]. split; [|assumption].
      exists (cycle st msg' (Ok r') ++ pre'')%list, a.
      rewrite app_assoc. reflexivity.
Qed.

(** A failed execution is followed at once by its record, numbered one
    more than the records before it, and then by the repair call. *)
Lemma loop_failure_recorded st t out :
  loop_events self st t out ->
  forall pre sql res msg post,
    t = (pre ++ Execute sql (Ok (res, Some msg)) :: post)%list ->
    exists r post',
      post =
        Append {| SQLImprovementAttempt.attempt :=
                    attempts st + 1 + Z.of_nat (List.length (appended pre));
                  SQLImprovementAttempt.sql := sql;
                  SQLImprovementAttempt.error := msg |}
        :: Improve sql msg r :: post'.
Proof.
  induction 1 as [st Hge|st t e Hlt Hb|st t st1 Hlt Hb
                 |st t st1 t' out Hlt Hb Hrest IH];
    intros pre sql res msg post Ht.
  - destruct pre; discriminate.
  - apply body_raised_events in Hb.
    destruct Hb as [[_ ->]|(_ & msg' & ->)]; unfold cycle in Ht; locate Ht.
    exists (Raised ValidationError), []. simpl. rewrite Z.add_0_r.
    reflexivity.
  - apply body_break_locals in Hb.
    destruct Hb as (_ & _ & _ & [(q & _ & _ & ->)|(msg' & r' & _ & _ & _ & ->)]);
      unfold cycle in Ht; locate Ht.
    exists (Ok r'), []. simpl. rewrite Z.add_0_r. reflexivity.
  - apply body_next_locals in Hb.
    destruct Hb as (Ha & _ & msg' & r' & _ & _ & _ & _ & ->).
    apply in_app_split in Ht.
    destruct Ht as [(mid & Hc & ->)|(pre' & -> & ->)].
    + unfold cycle in Hc. locate Hc.
      exists (Ok r'), t'. simpl. rewrite Z.add_0_r. reflexivity.
    + destruct (IH _ _ _ _ _ eq_refl) as (r & post' & ->).
      exists r, post'. rewrite appended_app. simpl.
      rewrite Ha. do 3 f_equal. lia.
Qed.

(** A record is appended only right after the failed execution it
    describes. *)
Lemma loop_record_follows_failure st t out :
  loop_events self st t out ->
  forall pre a post,
    t = (pre ++ Append a :: post)%list ->
    exists pre',
      pre = (pre' ++ [Execute (SQLImprovementAttempt.sql a)
                        (Ok (None, Some (SQLImprovementAttempt.error a)))])%list.
Proof.
  induction 1 as [st Hge|st t e Hlt Hb|st t st1 Hlt Hb
                 |st t st1 t' out Hlt Hb Hrest IH];
    intros pre a post Ht.
  - destruct pre; discriminate.
  - apply body_raised_events in Hb.
    destruct Hb as [[_ ->]|(_ & msg' & ->)]; unfold cycle in Ht; locate Ht.
    exists []. reflexivity.
  - apply body_break_locals in Hb.
    destruct Hb as (_ & _ & _ & [(q & _ & _ & ->)|(msg' & r' & _ & _ & _ & ->)]);
      unfold cycle in Ht; locate Ht.
    exists []. reflexivity.
  - apply body_next_locals in Hb.
    destruct Hb as (_ & _ & msg' & r' & _ & _ & _ & _ & ->).
    apply in_app_split in Ht.
    destruct Ht as [(mid & Hc & ->)|(pre' & -> & ->)].
    + unfold cycle in Hc. locate Hc. exists []. reflexivity.
    + destruct (IH _ _ _ eq_refl) as (pre'' & ->).
      exists (cycle st msg' (Ok r') ++ pre'')%list.
      rewrite app_assoc. reflexivity.
Qed.

(** An exception leaves the loop from the last call made. *)
Lemma loop_raised st t e :
  loop_events self st t (Raised e) ->
  exists pre ev,
    t = (pre ++ [ev])%list
    /\ ((e = ValidationError
         /\ exists sql msg, ev = Improve sql msg (Raised ValidationError))
        \/ (cursor_exn e /\ exists sql, ev = Execute sql (Raised e))).
Proof.
  intros H. remember (Raised e) as out eqn:Hout. revert Hout.
  induction H as [st Hge|st t e' Hlt Hb|st t st1 Hlt Hb
                 |st t st1 t' out Hlt Hb Hrest IH]; intros Hout.
  - discriminate.
  - inversion Hout. subst. apply body_raised_events in Hb.
    destruct Hb as [[Hc ->]|(-> & msg & ->)].
    + exists [], (Execute (current_sql st) (Raised e)).
      split; [reflexivity|]. right. split; [assumption|]. eexists.
      reflexivity.
    + exists [Execute (current_sql st) (Ok (None, Some msg));
              Append (record_of st msg)],
        (Improve (current_sql st) msg (Raised ValidationError)).
      split; [reflexivity|]. left. split; [reflexivity|].
      do 2 eexists. reflexivity.
  - discriminate.
  - destruct (IH Hout) as (pre & ev & -> & Hev).
    exists (t ++ pre)%list, ev. rewrite app_assoc. auto.
Qed.

(** When the first repair call of the loop gives back the SQL the loop was
    entered with, the loop ends with one more record. *)
Lemma loop_first_repair st t out :
  loop_events self st t out ->
  forall pre sql msg r post,
    t = (pre ++ Improve sql msg (Ok r) :: post)%list ->
    (forall ev, In ev pre -> is_improve ev = false) ->
    SQLGenerationResponse.sql_query r = current_sql st ->
    exists st', out = Ok st'
                /\ improvement_history st'
                   = (improvement_history st ++ [record_of st msg])%list.
Proof.
  intros H pre sql msg r post Ht Hfirst Hsame.
  destruct H as [st Hge|st t e Hlt Hb|st t st1 Hlt Hb
                |st t st1 t' out Hlt Hb Hrest].
  - destruct pre; discriminate.
  - apply body_raised_events in Hb.
    destruct Hb as [[_ ->]|(_ & msg' & ->)]; unfold cycle in Ht; locate Ht.
  - apply body_break_locals in Hb.
    destruct Hb as (_ & _ & Hh & [(q & _ & _ & ->)
                                |(msg' & r' & _ & _ & _ & ->)]);
      unfold cycle in Ht; locate Ht.
    exists st1. split; [reflexivity|]. rewrite Hh. reflexivity.
  - apply body_next_locals in Hb.
    destruct Hb as (_ & _ & msg' & r' & _ & _ & Hprog & _ & ->).
    apply in_app_split in Ht.
    destruct Ht as [(mid & Hc & ->)|(pre' & -> & ->)].
    + unfold cycle in Hc. locate Hc. exfalso. apply Hprog. right.
      assumption.
    + specialize (Hfirst (Improve (current_sql st) msg' (Ok r'))).
      simpl in Hfirst. discriminate Hfirst. auto.
Qed.

End Loop.

Lemma history_response nq st :
  history (response nq st) = improvement_history st.
Proof.
  unfold history, response. simpl.
  destruct (improvement_history st); reflexivity.
Qed.

End Along.

(* ===================================================================== *)
(** ** Properties of [process_query] and [execute_sql] *)
(* ===================================================================== *)

Module Agent.
Import PyStr PyVal Models World SQLAgent Steps Sound Along.

Section Properties.
Context {E : Env}.

(** C6.  When the first generation yields an empty [sql_query],
    [process_query] returns at once: the error is "Could not generate SQL
    query", there is no query result and no attempt history, and the only
    step of the run is that generation: nothing is executed. *)
Theorem empty_first_generation (self : SQLAgent.t) (natural_query : string)
    (w : world) (g : SQLGenerationResponse.t) (m1 : machine) :
  generate_sql self
    {| SQLGenerationRequest.query := natural_query;
       SQLGenerationRequest.context := None |} None
    {| now := w; trace := [] |} = (Ok g, m1) ->
  SQLGenerationResponse.sql_query g = "" ->
  run self natural_query w
  = (Ok {| SQLAgentResponse.natural_query := natural_query;
           SQLAgentResponse.generated_sql := "";
           SQLAgentResponse.explanation :=
             "Failed to generate SQL: " ++ SQLGenerationResponse.explanation g;
           SQLAgentResponse.query_result := None;
           SQLAgentResponse.error := Some "Could not generate SQL query";
           SQLAgentResponse.improvement_history := None |}, m1)
  /\ trace m1 = [Generate (Ok g)]
  /\ (forall sql r, ~ In (Execute sql r) (trace m1)).
Proof.
  intros Hg Hq. unfold run, process_query, bind. rewrite Hg, Hq. simpl.
  apply generate_sql_effect in Hg. destruct Hg as [Ht _]. simpl in Ht.
  split; [reflexivity|]. split; [assumption|].
  intros sql r. rewrite Ht. simpl. intros [H|[]]. discriminate.
Qed.

(** C9.  With [max_retries >= 1] a returned response has an error exactly
    when it has no query result.  With [max_retries <= 0] the generated SQL
    is never executed and the response has neither. *)
Theorem result_xor_error (self : SQLAgent.t) (natural_query : string)
    (w : world) (r : SQLAgentResponse.t) (m' : machine) :
  run self natural_query w = (Ok r, m') ->
  ((1 <= max_retries self)%Z ->
   (SQLAgentResponse.error r = None <-> SQLAgentResponse.query_result r <> None))
  /\ ((max_retries self <= 0)%Z ->
      SQLAgentResponse.generated_sql r <> "" ->
      SQLAgentResponse.error r = None
      /\ SQLAgentResponse.query_result r = None).
Proof.
  intros Hrun. apply run_sound in Hrun.
  inversion Hrun as [|g Hq|g t e Hq Hl|g t st Hq Hl]; subst.
  - split.
    + intros _. simpl. split; congruence.
    + intros _. simpl. congruence.
  - split.
    + intros Hmax. eapply loop_settled in Hl; [exact Hl|].
      left. simpl. lia.
    + intros Hmax _. apply loop_idle in Hl; [|simpl; lia].
      destruct Hl as [_ Hout]. inversion Hout. subst. simpl. auto.
Qed.

(** C10.  The attempt numbers of the history are 1, 2, ..., k in order,
    k being its length. *)
Theorem attempt_numbers_consecutive (self : SQLAgent.t)
    (natural_query : string) (w : world) (r : SQLAgentResponse.t)
    (m' : machine) :
  run self natural_query w = (Ok r, m') ->
  map SQLImprovementAttempt.attempt (history r)
  = map Z.of_nat (seq 1 (List.length (history r))).
Proof.
  intros Hrun. apply run_sound in Hrun.
  inversion Hrun as [|g Hq|g t e Hq Hl|g t st Hq Hl]; subst.
  - reflexivity.
  - rewrite history_response.
    rewrite (loop_history _ _ _ _ Hl). simpl.
    rewrite (loop_numbers _ _ _ _ Hl). unfold numbers. simpl.
    reflexivity.
Qed.

(** C3.  For a retry budget [max_retries >= 0] a run makes at most
    [max_retries] repair calls, and the attempt history of the response has
    at most [max_retries] records. *)
Theorem retry_budget (self : SQLAgent.t) (natural_query : string)
    (w : world) (out : outcome SQLAgentResponse.t) (m' : machine) :
  (0 <= max_retries self)%Z ->
  run self natural_query w = (out, m') ->
  (Z.of_nat (repair_cycles (trace m')) <= max_retries self)%Z
  /\ (forall r, out = Ok r ->
       (Z.of_nat (List.length (history r)) <= max_retries self)%Z).
Proof.
  intros Hmax Hrun. apply run_sound in Hrun.
  inversion Hrun as [|g Hq|g t e Hq Hl|g t st Hq Hl]; subst;
    try (unfold repair_cycles; simpl; split;
         [lia | intros r Hr; inversion Hr; subst; simpl; lia]).
  - destruct (loop_budget _ _ _ _ Hl) as [_ Hb]. simpl in Hb.
    split; [unfold repair_cycles in *; simpl; lia | discriminate].
  - destruct (loop_budget _ _ _ _ Hl) as [Hlen Hb]. simpl in Hb.
    split; [unfold repair_cycles in *; simpl; lia|].
    intros r Hr. inversion Hr. subst. rewrite history_response.
    rewrite (loop_history _ _ _ _ Hl). simpl. rewrite Hlen. lia.
Qed.

(** C2.  In every run, a failed execution is followed at once by the
    append of its record (its SQL, its error, and the number of records so
    far plus one) and then by the repair call; a record is appended only
    right after the failed execution it describes; and the history of a
    returned response is the list of appended records, however the loop
    ended. *)
Theorem one_record_per_failed_execution (self : SQLAgent.t)
    (natural_query : string) (w : world)
    (out : outcome SQLAgentResponse.t) (m' : machine) :
  run self natural_query w = (out, m') ->
  (forall pre sql res msg post,
      trace m' = (pre ++ Execute sql (Ok (res, Some msg)) :: post)%list ->
      exists r post',
        post =
          Append {| SQLImprovementAttempt.attempt :=
                      1 + Z.of_nat (List.length (appended pre));
                    SQLImprovementAttempt.sql := sql;
                    SQLImprovementAttempt.error := msg |}
          :: Improve sql msg r :: post')
  /\ (forall pre a post,
        trace m' = (pre ++ Append a :: post)%list ->
        exists pre',
          pre = (pre' ++ [Execute (SQLImprovementAttempt.sql a)
                            (Ok (None, Some (SQLImprovementAttempt.error a)))])%list)
  /\ (forall r, out = Ok r -> history r = appended (trace m')).
Proof.
  intros Hrun. apply run_sound in Hrun.
  assert (Hloop : forall g t o,
             loop_events self (entry g) t o ->
             (forall pre sql res msg post,
                 Generate (Ok g) :: t
                 = (pre ++ Execute sql (Ok (res, Some msg)) :: post)%list ->
                 exists r post',
                   post =
                     Append {| SQLImprovementAttempt.attempt :=
                                 1 + Z.of_nat (List.length (appended pre));
                               SQLImprovementAttempt.sql := sql;
                               SQLImprovementAttempt.error := msg |}
                     :: Improve sql msg r :: post')
             /\ (forall pre a post,
                   Generate (Ok g) :: t = (pre ++ Append a :: post)%list ->
                   exists pre',
                     pre = (pre' ++ [Execute (SQLImprovementAttempt.sql a)
                                       (Ok (None,
                                            Some (SQLImprovementAttempt.error a)))])%list)).
  { intros g t o Hl. split.
    - intros pre sql res msg post Ht.
      destruct pre as [|p pre]; simpl in Ht; inversion Ht; subst.
      destruct (loop_failure_recorded _ _ _ _ Hl _ _ _ _ _ eq_refl)
        as (r & post' & ->).
      exists r, post'. reflexivity.
    - intros pre a post Ht.
      destruct pre as [|p pre]; simpl in Ht; inversion Ht; subst.
      destruct (loop_record_follows_failure _ _ _ _ Hl _ _ _ eq_refl)
        as (pre' & ->).
      exists (Generate (Ok g) :: pre'). reflexivity. }
  inversion Hrun as [|g Hq|g t e Hq Hl|g t st Hq Hl]; subst.
  - repeat split.
    + intros pre sql res msg post Ht. locate Ht.
    + intros pre a post Ht. locate Ht.
    + discriminate.
  - repeat split.
    + intros pre sql res msg post Ht. locate Ht.
    + intros pre a post Ht. locate Ht.
    + intros r Hr. inversion Hr. reflexivity.
  - destruct (Hloop _ _ _ Hl) as [H1 H2].
    split; [assumption|]. split; [assumption|]. discriminate.
  - destruct (Hloop _ _ _ Hl) as [H1 H2].
    split; [assumption|]. split; [assumption|].
    intros r Hr. inversion Hr. subst. rewrite history_response.
    rewrite (loop_history _ _ _ _ Hl). reflexivity.
Qed.

(** C1.  When a repair call returns SQL that is empty or equal to the SQL
    that just failed, it is the last step of the run: nothing is generated
    or executed after it, and the response carries the error of that last
    failed execution and no result.  In particular, when the first repair
    returns the SQL of the initial generation, the history of the response
    has exactly one record. *)
Theorem stagnation_halts (self : SQLAgent.t) (natural_query : string)
    (w : world) (out : outcome SQLAgentResponse.t) (m' : machine) :
  run self natural_query w = (out, m') ->
  (forall pre sql msg r post,
      trace m' = (pre ++ Improve sql msg (Ok r) :: post)%list ->
      SQLGenerationResponse.sql_query r = ""
      \/ SQLGenerationResponse.sql_query r = sql ->
      post = []
      /\ (exists pre' a,
            pre = (pre' ++ [Execute sql (Ok (None, Some msg)); Append a])%list)
      /\ exists resp,
           out = Ok resp
           /\ SQLAgentResponse.error resp = Some msg
           /\ SQLAgentResponse.query_result resp = None)
  /\ (forall g pre sql msg r post,
        trace m' = (Generate (Ok g) :: pre ++ Improve sql msg (Ok r) :: post)%list ->
        (forall ev, In ev pre -> is_improve ev = false) ->
        SQLGenerationResponse.sql_query r = SQLGenerationResponse.sql_query g ->
        exists resp a, out = Ok resp /\ history resp = [a]).
Proof.
  intros Hrun. apply run_sound in Hrun.
  inversion Hrun as [|g Hq|g t e Hq Hl|g t st Hq Hl]; subst.
  - split.
    + intros pre sql msg r post Ht. locate Ht.
    + intros g pre sql msg r post Ht. inversion Ht; destruct pre; discriminate.
  - split.
    + intros pre sql msg r post Ht. locate Ht.
    + intros g' pre sql msg r post Ht. inversion Ht; destruct pre; discriminate.
  - split.
    + intros pre sql msg r post Ht Hstag.
      destruct pre as [|p pre]; simpl in Ht; inversion Ht; subst.
      destruct (loop_stagnation _ _ _ _ Hl _ _ _ _ _ eq_refl Hstag)
        as (_ & _ & st' & Hout & _). discriminate.
    + intros g' pre sql msg r post Ht Hfirst Hsame. inversion Ht. subst.
      destruct (loop_first_repair _ _ _ _ Hl _ _ _ _ _ eq_refl Hfirst Hsame)
        as (st' & Hout & _). discriminate.
  - split.
    + intros pre sql msg r post Ht Hstag.
      destruct pre as [|p pre]; simpl in Ht; inversion Ht; subst.
      destruct (loop_stagnation _ _ _ _ Hl _ _ _ _ _ eq_refl Hstag)
        as (Hpost & (pre' & a & ->) & st' & Hout & He & Hr & _).
      inversion Hout. subst.
      split; [reflexivity|]. split.
      * exists (Generate (Ok g) :: pre'), a. reflexivity.
      * eexists. split; [reflexivity|]. simpl. auto.
    + intros g' pre sql msg r post Ht Hfirst Hsame. inversion Ht. subst.
      destruct (loop_first_repair _ _ _ _ Hl _ _ _ _ _ eq_refl Hfirst Hsame)
        as (st' & Hout & Hh).
      inversion Hout. subst.
      exists (response natural_query st'), (record_of (entry g') msg).
      split; [reflexivity|]. rewrite history_response, Hh. reflexivity.
Qed.

(** C5, as amended.  [process_query] either returns a response or raises
    from the last call it made: the validation error of the response
    model, from a generation or a repair, or an exception of
    [execute_sql] that is not a database error.  A generation or a repair
    raises only when the model rejects the [sql_query] or the
    [explanation] of the dict the client handed back.  A transport failure
    does not raise: in the first generation it is returned as the error
    "Could not generate SQL query", with the transport message in the
    explanation, and in a repair it gives an empty [sql_query]. *)
Theorem failures_captured_or_raised (self : SQLAgent.t)
    (natural_query : string) (w : world) :
  (forall out m',
      run self natural_query w = (out, m') ->
      (exists r, out = Ok r)
      \/ (exists pre ev,
            out = Raised ValidationError
            /\ trace m' = (pre ++ [ev])%list
            /\ (ev = Generate (Raised ValidationError)
                \/ exists sql msg, ev = Improve sql msg (Raised ValidationError)))
      \/ (exists pre sql e,
            out = Raised e
            /\ trace m' = (pre ++ [Execute sql (Raised e)])%list
            /\ ((exists msg, e = EngineFault msg)
                \/ e = IndexError \/ e = TypeError)))
  /\ (forall call m e m',
        construct call m = (Raised e, m') ->
        let d := fst (call (now m)) in
        str_field coerce_scalar (LLMClient.dict_sql_query d) = None
        \/ str_field coerce_scalar (LLMClient.dict_explanation d) = None)
  /\ (forall msg w1,
        http_post w (GeneratePrompt natural_query (schema_info self) None)
        = (RequestException msg, w1) ->
        exists r m',
          run self natural_query w = (Ok r, m')
          /\ SQLAgentResponse.error r = Some "Could not generate SQL query"
          /\ SQLAgentResponse.explanation r
             = "Failed to generate SQL: Error generating SQL: "
               ++ "Error communicating with LLM API: " ++ msg
          /\ SQLAgentResponse.query_result r = None
          /\ trace m' = [Generate (Ok {| SQLGenerationResponse.sql_query := "";
                                         SQLGenerationResponse.explanation :=
                                           "Error generating SQL: "
                                           ++ "Error communicating with LLM API: "
                                           ++ msg |})])
  /\ (forall failed_sql error_message m msg w1,
        http_post (now m)
          (ImprovePrompt natural_query (schema_info self) failed_sql
             error_message)
        = (RequestException msg, w1) ->
        exists m',
          improve_sql self natural_query failed_sql error_message m
          = (Ok {| SQLGenerationResponse.sql_query := "";
                   SQLGenerationResponse.explanation :=
                     "Error improving SQL: "
                     ++ "Error communicating with LLM API: " ++ msg |}, m')).
Proof.
  split; [|split; [|split]].
  - intros out m' Hrun. apply run_sound in Hrun.
    inversion Hrun as [|g Hq|g t e Hq Hl|g t st Hq Hl]; subst.
    + right. left. exists [], (Generate (Raised ValidationError)). auto.
    + left. eexists. reflexivity.
    + apply loop_raised in Hl.
      destruct Hl as (pre & ev & -> & [(-> & sql & msg & ->)
                                      |(Hc & sql & ->)]).
      * right. left.
        exists (Generate (Ok g) :: pre),
          (Improve sql msg (Raised ValidationError)).
        split; [reflexivity|]. split; [reflexivity|]. right.
        do 2 eexists. reflexivity.
      * right. right. exists (Generate (Ok g) :: pre), sql, e. auto.
    + left. eexists. reflexivity.
  - intros call m e m'. unfold construct, make_generation_response.
    destruct (call (now m)) as [d w']. simpl.
    destruct (str_field coerce_scalar (LLMClient.dict_sql_query d));
      [|intros _; left; reflexivity].
    destruct (str_field coerce_scalar (LLMClient.dict_explanation d));
      [discriminate | intros _; right; reflexivity].
  - intros msg w1 Hpost.
    unfold run, process_query, bind, generate_sql, traced, construct.
    cbn [now trace SQLGenerationRequest.query].
    unfold LLMClient.generate_sql, LLMClient.get_completion.
    rewrite Hpost. cbn.
    do 2 eexists. split; [reflexivity|]. cbn. auto.
  - intros failed_sql error_message m msg w1 Hpost.
    unfold improve_sql, traced, construct.
    unfold LLMClient.improve_sql, LLMClient.get_completion.
    rewrite Hpost. cbn. eexists. reflexivity.
Qed.

(** C7.  Provided the cursor describes at least one column whenever it
    hands back rows, every successful [execute_sql] has
    [row_count = len(rows)], no error, and [columns] empty exactly when
    [rows] is empty; and an execution that fetches no rows is a success
    with empty columns and empty rows. *)
Theorem execute_sql_success_shape (sql_query : string) (m : machine) :
  (forall description rows w',
      cursor_run (now m) sql_query = (Fetched description rows, w') ->
      rows <> [] -> exists column columns, description = Some (column :: columns)) ->
  (forall res err m',
      execute_sql sql_query m = (Ok (Some res, err), m') ->
      SQLQueryResult.row_count res
      = Z.of_nat (List.length (SQLQueryResult.rows res))
      /\ (SQLQueryResult.columns res = [] <-> SQLQueryResult.rows res = [])
      /\ err = None)
  /\ (forall description w',
        cursor_run (now m) sql_query = (Fetched description [], w') ->
        fst (execute_sql sql_query m)
        = Ok (Some {| SQLQueryResult.columns := [];
                      SQLQueryResult.rows := [];
                      SQLQueryResult.row_count := 0 |}, None)).
Proof.
  intros Hengine. split.
  - intros res err m'. unfold execute_sql, traced.
    destruct (cursor_run (now m) sql_query) as [c w'] eqn:Hc.
    destruct c as [description rows|msg|msg]; simpl;
      try (intros H; inversion H; fail).
    destruct rows as [|row rows].
    + intros H. inversion H. subst. simpl. repeat split; reflexivity.
    + destruct (Hengine _ _ _ eq_refl) as (column & columns & ->);
        [discriminate|].
      match goal with |- context [comprehension ?f ?l] =>
        destruct (comprehension f l) as [e|row_data] eqn:Hrows end;
        intros H; inversion H; subst; simpl.
      apply comprehension_length in Hrows. simpl in Hrows.
      split; [reflexivity|]. split; [|reflexivity].
      split; intros H0; [discriminate|].
      subst. discriminate.
  - intros description w' Hc. unfold execute_sql, traced.
    rewrite Hc. reflexivity.
Qed.

End Properties.

(** *** Concrete runs *)

Lemma empty_first_generation_witness :
  exists g m1,
    @generate_sql Scripted.env (Scripted.agent 3)
      {| SQLGenerationRequest.query := Scripted.question;
         SQLGenerationRequest.context := None |} None
      (Scripted.fresh Scripted.prose_only) = (Ok g, m1)
    /\ SQLGenerationResponse.sql_query g = ""
    /\ fst (@run Scripted.env (Scripted.agent 3) Scripted.question
              Scripted.prose_only)
       = Ok {| SQLAgentResponse.natural_query := Scripted.question;
               SQLAgentResponse.generated_sql := "";
               SQLAgentResponse.explanation :=
                 "Failed to generate SQL: "
                 ++ SQLGenerationResponse.explanation g;
               SQLAgentResponse.query_result := None;
               SQLAgentResponse.error := Some "Could not generate SQL query";
               SQLAgentResponse.improvement_history := None |}
    /\ trace m1 = [Generate (Ok g)].
Proof.
  do 2 eexists. split; [reflexivity|]. split; [reflexivity|].
  destruct (@empty_first_generation Scripted.env (Scripted.agent 3)
              Scripted.question Scripted.prose_only _ _
              eq_refl eq_refl) as (Hrun & Ht & _).
  split; [rewrite Hrun; reflexivity | exact Ht].
Defined.

Lemma result_xor_error_witness :
  (exists r m',
      @run Scripted.env (Scripted.agent 3) Scripted.question
        Scripted.typo_then_fixed = (Ok r, m')
      /\ (1 <= max_retries (Scripted.agent 3))%Z
      /\ (SQLAgentResponse.error r = None
          <-> SQLAgentResponse.query_result r <> None))
  /\ (exists r m',
        @run Scripted.env (Scripted.agent 0) Scripted.question
          Scripted.typo_then_fixed = (Ok r, m')
        /\ (max_retries (Scripted.agent 0) <= 0)%Z
        /\ SQLAgentResponse.generated_sql r <> ""
        /\ SQLAgentResponse.error r = None
        /\ SQLAgentResponse.query_result r = None).
Proof.
  assert (H3 : @run Scripted.env (Scripted.agent 3) Scripted.question
                 Scripted.typo_then_fixed = Scripted.typo_run)
    by reflexivity.
  assert (H0 : @run Scripted.env (Scripted.agent 0) Scripted.question
                 Scripted.typo_then_fixed = Scripted.unexecuted_run)
    by reflexivity.
  unfold Scripted.typo_run in H3. unfold Scripted.unexecuted_run in H0.
  split.
  - do 2 eexists. split; [exact H3|]. split; [simpl; lia|].
    apply (proj1 (result_xor_error _ _ _ _ _ H3)). simpl. lia.
  - do 2 eexists. split; [exact H0|]. split; [simpl; lia|].
    split; [discriminate|].
    apply (proj2 (result_xor_error _ _ _ _ _ H0));
      [simpl; lia | discriminate].
Defined.

Lemma attempt_numbers_consecutive_witness :
  exists r m',
    @run Scripted.env (Scripted.agent 3) Scripted.question
      Scripted.never_right = (Ok r, m')
    /\ List.length (history r) = 3
    /\ map SQLImprovementAttempt.attempt (history r)
       = map Z.of_nat (seq 1 (List.length (history r))).
Proof.
  assert (H : @run Scripted.env (Scripted.agent 3) Scripted.question
                Scripted.never_right = Scripted.never_right_run)
    by reflexivity.
  unfold Scripted.never_right_run in H.
  do 2 eexists. split; [exact H|]. split; [reflexivity|].
  apply (attempt_numbers_consecutive _ _ _ _ _ H).
Defined.

Lemma retry_budget_witness :
  exists out m',
    (0 <= max_retries (Scripted.agent 3))%Z
    /\ @run Scripted.env (Scripted.agent 3) Scripted.question
         Scripted.never_right = (out, m')
    /\ repair_cycles (trace m') = 3
    /\ (Z.of_nat (repair_cycles (trace m')) <= 3)%Z
    /\ (forall r, out = Ok r -> (Z.of_nat (List.length (history r)) <= 3)%Z).
Proof.
  assert (H : @run Scripted.env (Scripted.agent 3) Scripted.question
                Scripted.never_right = Scripted.never_right_run)
    by reflexivity.
  unfold Scripted.never_right_run in H.
  do 2 eexists. split; [simpl; lia|]. split; [exact H|].
  split; [reflexivity|].
  refine (retry_budget _ _ _ _ _ _ H). simpl. lia.
Defined.

Lemma one_record_per_failed_execution_witness :
  exists out m' g post,
    @run Scripted.env (Scripted.agent 3) Scripted.question
      Scripted.typo_then_fixed = (out, m')
    /\ trace m'
       = ([Generate g]
          ++ Execute "SELECT * FROM custmers"
               (Ok (None, Some "SQL execution error: no such table: custmers"))
          :: post)%list
    /\ (exists r post',
          post
          = Append {| SQLImprovementAttempt.attempt :=
                        1 + Z.of_nat (List.length (appended [Generate g]));
                      SQLImprovementAttempt.sql := "SELECT * FROM custmers";
                      SQLImprovementAttempt.error :=
                        "SQL execution error: no such table: custmers" |}
            :: Improve "SELECT * FROM custmers"
                 "SQL execution error: no such table: custmers" r :: post')
    /\ (forall r, out = Ok r -> history r = appended (trace m')).
Proof.
  assert (H : @run Scripted.env (Scripted.agent 3) Scripted.question
                Scripted.typo_then_fixed = Scripted.typo_run)
    by reflexivity.
  unfold Scripted.typo_run in H.
  do 4 eexists. split; [exact H|]. split; [reflexivity|].
  destruct (one_record_per_failed_execution _ _ _ _ _ H)
    as (Hfail & _ & Hhist).
  split; [|exact Hhist].
  apply (Hfail [Generate _] "SELECT * FROM custmers" None
           "SQL execution error: no such table: custmers" _ eq_refl).
Defined.

Lemma stagnation_halts_witness :
  exists out m' g pre r,
    @run Scripted.env (Scripted.agent 3) Scripted.question Scripted.stuck
    = (out, m')
    /\ trace m'
       = (Generate (Ok g)
          :: pre
             ++ Improve "SELECT * FROM custmers"
                  "SQL execution error: no such table: custmers" (Ok r)
             :: [])%list
    /\ (forall ev, In ev pre -> is_improve ev = false)
    /\ SQLGenerationResponse.sql_query r = "SELECT * FROM custmers"
    /\ SQLGenerationResponse.sql_query r = SQLGenerationResponse.sql_query g
    /\ (exists resp,
          out = Ok resp
          /\ SQLAgentResponse.error resp
             = Some "SQL execution error: no such table: custmers"
          /\ SQLAgentResponse.query_result resp = None)
    /\ (exists resp a, out = Ok resp /\ history resp = [a]).
Proof.
  assert (H : @run Scripted.env (Scripted.agent 3) Scripted.question
                Scripted.stuck = Scripted.stuck_run)
    by reflexivity.
  unfold Scripted.stuck_run in H.
  assert (Hpre : forall ev,
             In ev [Execute "SELECT * FROM custmers"
                      (Ok (None,
                           Some "SQL execution error: no such table: custmers"));
                    Append {| SQLImprovementAttempt.attempt := 1;
                              SQLImprovementAttempt.sql :=
                                "SELECT * FROM custmers";
                              SQLImprovementAttempt.error :=
                                "SQL execution error: no such table: custmers" |}] ->
             is_improve ev = false)
    by (intros ev [<-|[<-|[]]]; reflexivity).
  do 3 eexists. eexists (_ :: _ :: nil). eexists.
  split; [exact H|]. split; [reflexivity|].
  split; [exact Hpre|]. split; [reflexivity|]. split; [reflexivity|].
  destruct (stagnation_halts _ _ _ _ _ H) as (Hhalt & Hfirst).
  split.
  - refine (proj2 (proj2 (Hhalt [Generate _; Execute _ _; Append _]
                            _ _ _ [] eq_refl _))).
    right. reflexivity.
  - exact (Hfirst _ [Execute _ _; Append _] _ _ _ [] eq_refl Hpre eq_refl).
Defined.

Lemma failures_captured_or_raised_witness :
  (exists out m',
      @run Scripted.env (Scripted.agent 3) Scripted.question
        Scripted.null_sql = (out, m')
      /\ out = Raised ValidationError
      /\ trace m' = [Generate (Raised ValidationError)])
  /\ (exists r m',
        @http_post Scripted.env Scripted.offline
          (GeneratePrompt Scripted.question
             (schema_info (Scripted.agent 3)) None)
        = (RequestException "connection refused", Scripted.offline)
        /\ @run Scripted.env (Scripted.agent 3) Scripted.question
             Scripted.offline = (Ok r, m')
        /\ SQLAgentResponse.error r = Some "Could not generate SQL query"
        /\ SQLAgentResponse.query_result r = None).
Proof.
  destruct (@failures_captured_or_raised Scripted.env (Scripted.agent 3)
              Scripted.question Scripted.offline) as (_ & _ & Hoff & _).
  destruct (@failures_captured_or_raised Scripted.env (Scripted.agent 3)
              Scripted.question Scripted.null_sql) as [Hcls _].
  split.
  - do 2 eexists. split; [reflexivity|].
    destruct (Hcls _ _ eq_refl)
      as [(r & Hr)|[(pre & ev & Ho & Ht & _)|(pre & sql & e & Ho & Ht & _)]].
    + discriminate Hr.
    + split; reflexivity.
    + destruct pre as [|p [|p' pre]]; discriminate Ht.
  - destruct (Hoff "connection refused" Scripted.offline eq_refl)
      as (r & m' & Hrun & He & _ & Hq & _).
    exists r, m'. auto.
Defined.

Lemma execute_sql_success_shape_witness :
  (exists res err m',
      @execute_sql Scripted.env "SELECT * FROM customers"
        (Scripted.fresh
           {| Scripted.replies := [];
              Scripted.answers :=
                [Fetched (Some ["customer_id"; "name"])
                   [[CInt 1; CText "Ann"]; [CInt 2; CText "Bob"]]] |})
      = (Ok (Some res, err), m')
      /\ SQLQueryResult.row_count res = 2%Z
      /\ SQLQueryResult.row_count res
         = Z.of_nat (List.length (SQLQueryResult.rows res))
      /\ (SQLQueryResult.columns res = [] <-> SQLQueryResult.rows res = [])
      /\ err = None)
  /\ fst (@execute_sql Scripted.env "SELECT * FROM customers WHERE 1 = 0"
            (Scripted.fresh Scripted.no_match))
     = Ok (Some {| SQLQueryResult.columns := [];
                   SQLQueryResult.rows := [];
                   SQLQueryResult.row_count := 0 |}, None).
Proof.
  split.
  - do 3 eexists. split; [reflexivity|]. split; [reflexivity|].
    refine (proj1 (@execute_sql_success_shape Scripted.env
                     "SELECT * FROM customers"
                     (Scripted.fresh
                        {| Scripted.replies := [];
                           Scripted.answers :=
                             [Fetched (Some ["customer_id"; "name"])
                                [[CInt 1; CText "Ann"];
                                 [CInt 2; CText "Bob"]]] |}) _)
              _ _ _ eq_refl).
    intros description rows w' H _. inversion H. eauto.
  - refine (proj2 (@execute_sql_success_shape Scripted.env
                     "SELECT * FROM customers WHERE 1 = 0"
                     (Scripted.fresh Scripted.no_match) _)
              (Some ["customer_id"; "name"])
              {| Scripted.replies :=
                   [Content "SELECT * FROM customers WHERE 1 = 0;"];
                 Scripted.answers := [] |} eq_refl).
    intros description rows w' H Hrows. inversion H. subst. contradiction.
Defined.

(** C5 as stated fails: an object whose [sql_query] is [null] is decoded
    by method 3, the response model rejects it, and the validation error
    leaves [process_query]. *)
Lemma null_sql_query_raises :
  ~ (forall (E : Env) (self : SQLAgent.t) (natural_query : string)
            (w : @world E),
        exists r m', @run E self natural_query w = (Ok r, m')).
Proof.
  intros H.
  destruct (H Scripted.env (Scripted.agent 3) Scripted.question
              Scripted.null_sql) as (r & m' & Hrun).
  discriminate Hrun.
Qed.

End Agent.

(* ===================================================================== *)
(** ** Facts about the [str] operations *)
(* ===================================================================== *)

Module StrFacts.
Import PyStr.

Lemma append_assoc (a b c : string) : (a ++ b) ++ c = a ++ b ++ c.
Proof. induction a as [|x a IH]; simpl; [reflexivity|]. rewrite IH. reflexivity. Qed.

Lemma append_nil_r (a : string) : a ++ "" = a.
Proof. induction a as [|x a IH]; simpl; [reflexivity|]. rewrite IH. reflexivity. Qed.

Lemma chars_app (a b : string) :
  list_ascii_of_string (a ++ b)
  = (list_ascii_of_string a ++ list_ascii_of_string b)%list.
Proof. induction a as [|x a IH]; simpl; [reflexivity|]. rewrite IH. reflexivity. Qed.

Lemma string_of_app (l l' : list ascii) :
  string_of_list_ascii (l ++ l')
  = string_of_list_ascii l ++ string_of_list_ascii l'.
Proof. induction l as [|x l IH]; simpl; [reflexivity|]. rewrite IH. reflexivity. Qed.

Lemma map_chars_app f (a b : string) :
  map_chars f (a ++ b) = map_chars f a ++ map_chars f b.
Proof. induction a as [|x a IH]; simpl; [reflexivity|]. rewrite IH. reflexivity. Qed.

Lemma prefix_nil (s : string) : prefix "" s = true.
Proof. destruct s; reflexivity. Qed.

Lemma prefix_app (p s : string) :
  prefix p s = true <-> exists r, s = p ++ r.
Proof.
  revert s. induction p as [|x p IH]; intros s.
  - rewrite prefix_nil. split; [intros _; exists s; reflexivity | reflexivity].
  - destruct s as [|y s]; simpl.
    + split; [discriminate | intros [r Hr]; discriminate].
    + destruct (ascii_dec x y) as [->|Hne].
      * rewrite IH. split; intros [r Hr]; exists r; congruence.
      * split; [discriminate | intros [r Hr]; congruence].
Qed.

(** [sub in s] holds exactly when [s] is [a ++ sub ++ b]. *)
Lemma contains_app (sub s : string) :
  contains sub s = true <-> exists a b, s = a ++ sub ++ b.
Proof.
  induction s as [|y s IH].
  - cbn [contains]. rewrite orb_false_r, prefix_app. split.
    + intros [r Hr]. exists "", r. assumption.
    + intros (a & b & H). destruct a; [|discriminate]. exists b. assumption.
  - cbn [contains]. rewrite orb_true_iff, IH, prefix_app. split.
    + intros [[r Hr]|(a & b & H)].
      * exists "", r. assumption.
      * exists (String y a), b. simpl. congruence.
    + intros (a & b & H). destruct a as [|x a]; simpl in H.
      * left. exists b. assumption.
      * right. exists a, b. congruence.
Qed.

Lemma contains_inside (sub x l y : string) :
  contains sub l = true -> contains sub (x ++ l ++ y) = true.
Proof.
  rewrite !contains_app. intros (a & b & ->).
  exists (x ++ a), (b ++ y). rewrite !append_assoc. reflexivity.
Qed.

Lemma contains_longer (a b s : string) :
  contains (a ++ b) s = true -> contains a s = true.
Proof.
  rewrite !contains_app. intros (x & y & ->).
  exists x, (b ++ y). rewrite append_assoc. reflexivity.
Qed.

(** The pieces of a split are parts of the text. *)
Lemma split_go_part (sep : string) (s : string) :
  forall skip cur p,
    In p (split_go sep skip cur s) ->
    (exists a t b, s = a ++ t ++ b /\ (skip = 0 -> a = "")
                   /\ p = string_of_list_ascii (rev cur) ++ t)
    \/ (exists a b, s = a ++ p ++ b).
Proof.
  induction s as [|c s IH]; intros skip cur p Hin.
  - simpl in Hin. destruct Hin as [<-|[]]. left.
    exists "", "", "". split; [reflexivity|]. split; [reflexivity|].
    symmetry. apply append_nil_r.
  - cbn [split_go] in Hin. destruct skip as [|k].
    + destruct (prefix sep (String c s)).
      * destruct Hin as [<-|Hin].
        -- left. exists "", "", (String c s).
           split; [reflexivity|]. split; [reflexivity|].
           symmetry. apply append_nil_r.
        -- right. apply IH in Hin.
           destruct Hin as [(a & t & b & -> & _ & ->)|(a & b & ->)].
           ++ exists (String c a), b. reflexivity.
           ++ exists (String c a), b. reflexivity.
      * apply IH in Hin.
        destruct Hin as [(a & t & b & -> & Ha & ->)|(a & b & ->)].
        -- left. rewrite (Ha eq_refl). exists "", (String c t), b.
           split; [reflexivity|]. split; [reflexivity|].
           simpl. rewrite string_of_app, append_assoc. reflexivity.
        -- right. exists (String c a), b. reflexivity.
    + apply IH in Hin.
      destruct Hin as [(a & t & b & -> & _ & ->)|(a & b & ->)].
      * left. exists (String c a), t, b. split; [reflexivity|].
        split; [discriminate | reflexivity].
      * right. exists (String c a), b. reflexivity.
Qed.

Lemma split_part (sep s p : string) :
  In p (split sep s) -> exists a b, s = a ++ p ++ b.
Proof.
  unfold split. intros Hin. apply split_go_part in Hin.
  destruct Hin as [(a & t & b & -> & Ha & ->)|H]; [|assumption].
  rewrite (Ha eq_refl). exists "", b. reflexivity.
Qed.

(** A keyword found in a line is found in the text. *)
Lemma contains_upper_line (sub sep s line : string) :
  In line (split sep s) ->
  contains sub (upper line) = true ->
  contains sub (upper s) = true.
Proof.
  intros Hin Hc. apply split_part in Hin. destruct Hin as (a & b & ->).
  unfold upper in *. rewrite !map_chars_app. apply contains_inside.
  assumption.
Qed.

Lemma upper_char_S (c : ascii) : upper_char c = "S"%char -> solid c.
Proof.
  destruct c as [[] [] [] [] [] [] [] []]; vm_compute;
    intros H; try discriminate H; split; congruence.
Qed.

Lemma select_has_solid (line : string) :
  contains "SELECT" (upper line) = true ->
  exists c, In c (list_ascii_of_string line) /\ solid c.
Proof.
  induction line as [|c line IH].
  - vm_compute. discriminate.
  - cbn [contains upper map_chars]. rewrite orb_true_iff.
    intros [Hp|Hrest].
    + exists c. split; [left; reflexivity|]. apply upper_char_S.
      apply prefix_app in Hp. destruct Hp as [r Hr]. simpl in Hr.
      congruence.
    + destruct (IH Hrest) as (c' & Hin & Hs). exists c'.
      split; [right; assumption | assumption].
Qed.

Lemma join_keeps (sep : string) (pieces : list string) (p : string) c :
  In p pieces -> In c (list_ascii_of_string p) ->
  In c (list_ascii_of_string (join sep pieces)).
Proof.
  induction pieces as [|q pieces IH]; [intros []|].
  intros [->|Hin] Hc.
  - destruct pieces; [assumption|]. cbn [join]. rewrite chars_app.
    apply in_or_app. left. assumption.
  - destruct pieces as [|q' pieces]; [destruct Hin|].
    cbn [join]. rewrite !chars_app. apply in_or_app. right.
    apply in_or_app. right. apply IH; assumption.
Qed.

Lemma drop_space_keeps (l : list ascii) c :
  In c l -> is_space c = false -> In c (drop_space l).
Proof.
  induction l as [|x l IH]; [intros []|].
  intros [->|Hin] Hc; simpl.
  - rewrite Hc. left. reflexivity.
  - destruct (is_space x); [apply IH; assumption | right; assumption].
Qed.

Lemma strip_keeps (s : string) c :
  In c (list_ascii_of_string s) -> is_space c = false ->
  In c (list_ascii_of_string (strip s)).
Proof.
  intros Hin Hc. unfold strip, strip_chars.
  rewrite list_ascii_of_string_of_list_ascii.
  apply in_rev. rewrite rev_involutive.
  apply drop_space_keeps; [|assumption].
  apply -> in_rev. apply drop_space_keeps; assumption.
Qed.

Lemma drop_last_keeps (s : string) c :
  In c (list_ascii_of_string s) -> c <> ";"%char ->
  endswith ";" s = true ->
  In c (list_ascii_of_string (drop_last s)).
Proof.
  intros Hin Hc He. unfold drop_last, endswith, rev_string in *.
  rewrite list_ascii_of_string_of_list_ascii.
  apply prefix_app in He. destruct He as [r Hr]. simpl in Hr.
  apply (f_equal list_ascii_of_string) in Hr.
  rewrite list_ascii_of_string_of_list_ascii in Hr. simpl in Hr.
  apply (f_equal (@rev ascii)) in Hr. rewrite rev_involutive in Hr.
  simpl in Hr. rewrite Hr in *. rewrite removelast_last.
  apply in_app_or in Hin. destruct Hin as [Hin|[Hin|[]]]; [assumption|].
  congruence.
Qed.

Lemma has_char_nonempty (s : string) c :
  In c (list_ascii_of_string s) -> s <> "".
Proof. destruct s; [intros [] | discriminate]. Qed.

End StrFacts.

(* ===================================================================== *)
(** ** Properties of [_extract_sql_from_response] *)
(* ===================================================================== *)

Module Parser.
Import PyStr PyVal LLMClient StrFacts.

Ltac pick H :=
  match type of H with
  | (_ = ?pre ++ _)%list =>
      destruct pre as [|? [|? [|? [|? [|? ?]]]]]; simpl in H; inversion H; subst
  end.

Section Chain.

Variable json_loads : string -> option pyval.

(** C4, as amended.  Extraction always returns a dict.  The methods run
    in the order of [plan]: method 1 when the text has a [```json] fence,
    otherwise method 2 when it has any fence, then methods 3, 4 and 5; each
    recorded step is what its method does on the stripped text; a method
    that raises or ends without returning is followed by the next one, and
    only a return stops the chain; the dict of the returning method is the
    result, and when none returns the result is the parse error.  With a
    [```json] fence in the text, method 2 is never run: after method 1
    fails the chain goes on with method 3. *)
Theorem fallback_chain (content : string) :
  let c := strip content in
  let steps := chain json_loads c in
  (forall m a, In (m, a) steps -> a = run_method json_loads m c)
  /\ (exists rest, plan c = (map fst steps ++ rest)%list)
  /\ (forall pre m a post,
        steps = (pre ++ (m, a) :: post)%list -> post <> [] -> falls_through a)
  /\ ((forall m a, In (m, a) steps -> falls_through a) ->
      map fst steps = plan c
      /\ _extract_sql_from_response json_loads content = parse_error c)
  /\ (forall pre m d,
        steps = (pre ++ [(m, Returns d)])%list ->
        _extract_sql_from_response json_loads content = d)
  /\ (contains json_fence c = true -> ~ In Method2 (map fst steps)).
Proof.
  intros c steps. subst steps.
  unfold _extract_sql_from_response. fold c.
  unfold plan, first_methods, chain, fenced_step.
  destruct (contains json_fence c) eqn:Hj;
    [destruct (method1 json_loads c) eqn:H1
    |destruct (contains fence c) eqn:Hf;
       [destruct (method2 c) eqn:H2|]];
    cbn [returned last app run_methods];
    try (destruct (method3 json_loads c) eqn:H3;
         try (destruct (method4 json_loads c) eqn:H4;
              try (destruct (method5 c) eqn:H5)));
    cbn [run_methods returned last app map fst];
    (split;
     [intros m a Hin; simpl in Hin;
      repeat (destruct Hin as [Hin|Hin];
              [inversion Hin; subst; simpl; congruence|]);
      destruct Hin
     |split;
      [eexists; reflexivity
      |split;
       [intros pre m a post Hs Hpost; pick Hs;
        try congruence; intros d'; discriminate
       |split;
        [intros Hall;
         try (split; reflexivity);
         exfalso;
         match type of Hall with
         | context [(?m, Returns ?d)] =>
             exact (Hall m (Returns d) ltac:(simpl; tauto) d eq_refl)
         end
        |split;
         [intros pre m d' Hs; pick Hs; try reflexivity;
          try match goal with H : [] = (_ ++ _ :: _)%list |- _ =>
            destruct (app_cons_not_nil _ _ _ H) end
         |intros Hc Hin; try discriminate Hc; simpl in Hin;
          repeat (destruct Hin as [Hin|Hin]; [discriminate|]);
          destruct Hin]]]]]).
Qed.

(** The [for] loop passes over lines without the keyword. *)
Lemma capture_skip (pre rest : list string) :
  Forall (fun line => contains "SELECT" (upper line) = false) pre ->
  capture_lines (pre ++ rest) false = capture_lines rest false.
Proof.
  induction 1 as [|line pre Hline _ IH]; [reflexivity|].
  simpl. rewrite Hline. simpl. assumption.
Qed.

(** Once capturing, it takes every line up to the first with a [';']. *)
Lemma capture_run (body : list string) (closing : string) (post : list string) :
  Forall (fun line => contains ";" line = false) body ->
  contains ";" closing = true ->
  capture_lines (body ++ closing :: post) true = (body ++ [closing])%list.
Proof.
  intros Hbody Hclosing.
  induction Hbody as [|line body Hline _ IH]; simpl.
  - rewrite orb_true_r, Hclosing. reflexivity.
  - rewrite orb_true_r, Hline, IH. reflexivity.
Qed.

Lemma capture_start (body : list string) (closing : string) (post : list string) :
  contains "SELECT" (upper (hd closing body)) = true ->
  Forall (fun line => contains ";" line = false) body ->
  contains ";" closing = true ->
  capture_lines (body ++ closing :: post) false = (body ++ [closing])%list.
Proof.
  intros Hsel Hbody Hclosing. destruct body as [|line body]; simpl in *.
  - rewrite Hsel, Hclosing. reflexivity.
  - inversion Hbody as [|x l Hline Hrest]; subst.
    rewrite Hsel, Hline. simpl. rewrite capture_run by assumption.
    reflexivity.
Qed.

(** C8.  Take a text with no fence in which methods 3 and 4 find no
    object with the two keys, and whose lines are [pre], then [body] and
    [closing], then [post]: no line of [pre] holds SELECT, the first of
    [body ++ [closing]] does, and [closing] is the first of them with a
    [';'].  Extraction returns the lines [body ++ [closing]] joined with
    spaces, stripped, without one trailing [';'], with the explanation
    "Extracted SQL query from text"; that SQL is not empty. *)
Theorem keyword_rescue (content : string)
    (pre body : list string) (closing : string) (post : list string) :
  let c := strip content in
  contains fence c = false ->
  falls_through (method3 json_loads c) ->
  falls_through (method4 json_loads c) ->
  split newline c = (pre ++ body ++ closing :: post)%list ->
  Forall (fun line => contains "SELECT" (upper line) = false) pre ->
  contains "SELECT" (upper (hd closing body)) = true ->
  Forall (fun line => contains ";" line = false) body ->
  contains ";" closing = true ->
  let joined := strip (join " " (body ++ [closing])) in
  let sql_query := if endswith ";" joined then drop_last joined else joined in
  _extract_sql_from_response json_loads content
  = {| dict_sql_query := PStr sql_query;
       dict_explanation := PStr "Extracted SQL query from text" |}
  /\ sql_query <> "".
Proof.
  intros c Hfence H3 H4 Hlines Hpre Hsel Hbody Hclosing joined sql_query.
  assert (Hjson : contains json_fence c = false).
  { destruct (contains json_fence c) eqn:Hj; [|reflexivity].
    change json_fence with (fence ++ "json") in Hj.
    apply contains_longer in Hj. congruence. }
  assert (Hin : In (hd closing body) (split newline c)).
  { rewrite Hlines. apply in_or_app. right.
    destruct body; simpl; [left; reflexivity | left; reflexivity]. }
  assert (Hkey : contains "SELECT" (upper c) = true)
    by (eapply contains_upper_line; eassumption).
  assert (H5 : method5 c
               = Returns {| dict_sql_query := PStr sql_query;
                            dict_explanation :=
                              PStr "Extracted SQL query from text" |}).
  { unfold method5. rewrite Hkey. cbn [orb].
    rewrite Hlines, capture_skip, capture_start by assumption.
    destruct (body ++ [closing])%list eqn:Hcap.
    - destruct (app_cons_not_nil _ _ _ (eq_sym Hcap)).
    - reflexivity. }
  split.
  - unfold _extract_sql_from_response. fold c.
    unfold chain, fenced_step. rewrite Hjson, Hfence.
    cbn [returned last app run_methods].
    destruct (method3 json_loads c) eqn:E3;
      [| |exfalso; eapply H3; reflexivity];
      (destruct (method4 json_loads c) eqn:E4;
       [| |exfalso; eapply H4; reflexivity]);
      rewrite H5; reflexivity.
  - destruct (select_has_solid _ Hsel) as (ch & Hch & Hspace & Hsemi).
    assert (Hjoined : In ch (list_ascii_of_string joined)).
    { apply strip_keeps; [|assumption].
      apply join_keeps with (p := hd closing body); [|assumption].
      destruct body; simpl; left; reflexivity. }
    apply has_char_nonempty with (c := ch). unfold sql_query.
    destruct (endswith ";" joined) eqn:Hend; [|assumption].
    apply drop_last_keeps; assumption.
Qed.

End Chain.

(** C4 as stated fails: a [```json] block that does not parse sends the
    chain on to method 3, and method 2 is not run. *)
Lemma json_fence_skips_method2 :
  ~ (forall (json_loads : string -> option pyval) (content : string),
        contains json_fence (strip content) = true ->
        method1 json_loads (strip content) = Raises JSONDecodeError ->
        In Method2 (map fst (chain json_loads (strip content)))).
Proof.
  intros H.
  specialize (H Scripted.loads Scripted.broken_json_block eq_refl eq_refl).
  vm_compute in H. intuition discriminate.
Qed.

Lemma fallback_chain_witness :
  contains json_fence (strip Scripted.broken_json_block) = true
  /\ map fst (chain Scripted.loads (strip Scripted.broken_json_block))
     = [Method1; Method3; Method4; Method5]
  /\ ~ In Method2
         (map fst (chain Scripted.loads (strip Scripted.broken_json_block))).
Proof.
  split; [reflexivity|]. split; [reflexivity|].
  apply (fallback_chain Scripted.loads Scripted.broken_json_block).
  reflexivity.
Defined.

Lemma keyword_rescue_witness :
  _extract_sql_from_response Scripted.loads Scripted.query_in_prose
  = {| dict_sql_query := PStr "select name from customers";
       dict_explanation := PStr "Extracted SQL query from text" |}
  /\ "select name from customers" <> "".
Proof.
  refine (keyword_rescue Scripted.loads Scripted.query_in_prose
            ["Here is the query:"] ["select name"] "from customers;"
            ["It lists the names."] eq_refl _ _ eq_refl _ eq_refl _ eq_refl).
  - intros d H. vm_compute in H. discriminate.
  - intros d H. vm_compute in H. discriminate.
  - repeat constructor.
  - repeat constructor.
Defined.

End Parser.

(* ===================================================================== *)
(** ** More about the runs of [process_query] *)
(* ===================================================================== *)

Module Runs.
Import PyStr PyVal Models World SQLAgent Steps Forms Sound Along Log StrFacts.

Lemma no_progress_stagnates r sql :
  no_progress r sql = true <-> stagnates r sql.
Proof.
  unfold no_progress, stagnates.
  rewrite orb_true_iff, is_empty_true, String.eqb_eq. reflexivity.
Qed.

Lemma no_progress_false r sql :
  no_progress r sql = false <-> ~ stagnates r sql.
Proof.
  rewrite <- no_progress_stagnates.
  destruct (no_progress r sql); split; congruence.
Qed.

Lemma executions_app (t t' : list event) :
  executions (t ++ t') = executions t + executions t'.
Proof. unfold executions. rewrite filter_app, length_app. reflexivity. Qed.

Lemma generations_app (t t' : list event) :
  generations (t ++ t') = generations t + generations t'.
Proof. unfold generations. rewrite filter_app, length_app. reflexivity. Qed.

Section Shapes.
Context {E : Env}.

Lemma loop_body_shaped self nq st m r m' :
  loop_body self nq st m = (r, m') ->
  Forall shaped (trace m) -> Forall shaped (trace m').
Proof.
  unfold loop_body, bind. intros Hrun Hm.
  destruct (execute_sql (current_sql st) m) as [x m1] eqn:Hx.
  apply execute_sql_effect in Hx. destruct Hx as [Ht1 Hshape].
  assert (H1 : Forall shaped (trace m1)).
  { rewrite Ht1. apply Forall_app. split; [assumption|].
    constructor; [exact Hshape | constructor]. }
  destruct x as [ex|e]; [|inversion Hrun; subst; assumption].
  revert Hrun. cbn [assign_execution error].
  destruct (snd ex) as [msg|];
    [|unfold ret; intros Hrun; inversion Hrun; subst; assumption].
  destruct (is_empty msg);
    [unfold ret; intros Hrun; inversion Hrun; subst; assumption|].
  unfold log at 1. cbn [now trace].
  match goal with |- context [improve_sql ?a ?b ?c ?d ?mm] =>
    destruct (improve_sql a b c d mm) as [y m2] eqn:Hy end.
  apply improve_sql_effect in Hy. destruct Hy as [Ht2 _].
  cbn [now trace] in Ht2.
  assert (H2 : Forall shaped (trace m2)).
  { rewrite Ht2. apply Forall_app. split; [|repeat constructor].
    apply Forall_app. split; [assumption | repeat constructor]. }
  destruct y as [ir|e]; [|intros Hrun; inversion Hrun; subst; assumption].
  match goal with |- context [if ?b then _ else _] => destruct b end;
    unfold ret; intros Hrun; inversion Hrun; subst; assumption.
Qed.

Lemma while_loop_shaped self nq st m out m' :
  while_loop self nq st m = (out, m') ->
  Forall shaped (trace m) -> Forall shaped (trace m').
Proof.
  revert out m'.
  funelim (while_loop self nq st m); intros out mm Hrun Hm;
    try match goal with Hb : loop_body _ _ _ _ = _ |- _ =>
      pose proof (loop_body_shaped _ _ _ _ _ _ Hb Hm) as Hm' end.
  - inversion Hrun. subst. assumption.
  - inversion Hrun. subst. assumption.
  - match goal with IH : forall _ _, _ = _ -> _ |- _ =>
      exact (IH _ _ Hrun Hm') end.
  - inversion Hrun. subst. assumption.
Qed.

Lemma run_shaped self nq w out m' :
  run self nq w = (out, m') -> Forall shaped (trace m').
Proof.
  unfold run, process_query, bind.
  match goal with |- context [generate_sql ?a ?b ?c ?mm] =>
    destruct (generate_sql a b c mm) as [g m1] eqn:Hg end.
  apply generate_sql_effect in Hg. destruct Hg as [Ht1 _].
  simpl in Ht1.
  assert (H1 : Forall shaped (trace m1))
    by (rewrite Ht1; repeat constructor).
  destruct g as [g|e]; [|intros H; inversion H; subst; assumption].
  destruct (is_empty (SQLGenerationResponse.sql_query g));
    [unfold ret; intros H; inversion H; subst; assumption|].
  match goal with |- context [while_loop ?a ?b ?c ?mm] =>
    destruct (while_loop a b c mm) as [o m2] eqn:Hloop end.
  apply while_loop_shaped in Hloop; [|assumption].
  destruct o; unfold ret; intros H; inversion H; subst; assumption.
Qed.

End Shapes.

Section Loop.

Variable self : SQLAgent.t.

Lemma loop_explanation st t st' :
  loop_events self st t (Ok st') ->
  current_explanation st'
  = current_explanation st ++ improvements (attempts st + 1) t.
Proof.
  intros H. remember (Ok st') as out eqn:Hout. revert st' Hout.
  induction H as [st Hge|st t e Hlt Hb|st t st1 Hlt Hb
                 |st t st1 t' out Hlt Hb Hrest IH]; intros st' Hout.
  - inversion Hout. subst. simpl. rewrite append_nil_r. reflexivity.
  - discriminate.
  - inversion Hout. subst. inversion Hb; subst; simpl.
    + rewrite append_nil_r. reflexivity.
    + match goal with Hs : stagnates _ _ |- _ =>
        apply no_progress_stagnates in Hs; rewrite Hs end.
      rewrite append_nil_r. reflexivity.
  - rewrite (IH _ Hout). inversion Hb; subst.
    cbn [cycle app improvements].
    match goal with Hs : ~ stagnates _ _ |- _ =>
      apply no_progress_false in Hs; rewrite Hs end.
    cbn [assign_improved failed append_history assign_execution
         current_explanation attempts].
    rewrite !append_assoc. reflexivity.
Qed.

Lemma loop_calls st t out :
  loop_events self st t out ->
  repair_cycles t <= executions t <= repair_cycles t + 1
  /\ generations t = 0
  /\ ((attempts st <= max_retries self)%Z ->
      (attempts st + Z.of_nat (executions t) <= max_retries self)%Z).
Proof.
  induction 1 as [st Hge|st t e Hlt Hb|st t st1 Hlt Hb
                 |st t st1 t' out Hlt Hb Hrest IH].
  - unfold repair_cycles, executions, generations. simpl.
    repeat split; lia.
  - inversion Hb; subst; unfold repair_cycles, executions, generations;
      simpl; repeat split; lia.
  - inversion Hb; subst; unfold repair_cycles, executions, generations;
      simpl; repeat split; lia.
  - inversion Hb; subst.
    rewrite repair_cycles_app, executions_app, generations_app.
    destruct IH as (IH1 & IH2 & IH3).
    cbn [attempts assign_improved failed append_history assign_execution]
      in IH3.
    change (repair_cycles (cycle st msg (Ok r))) with 1.
    change (executions (cycle st msg (Ok r))) with 1.
    change (generations (cycle st msg (Ok r))) with 0.
    repeat split; lia.
Qed.

Lemma body_step_speaks st t r : body_step st t r -> t <> [].
Proof. destruct 1; discriminate. Qed.

Lemma loop_silent st out :
  loop_events self st [] out -> (max_retries self <= attempts st)%Z.
Proof.
  intros H. remember [] as t eqn:Ht. destruct H as [st Hge|st t e Hlt Hb
                |st t st1 Hlt Hb|st t st1 t' out Hlt Hb Hrest].
  - assumption.
  - apply body_step_speaks in Hb. contradiction.
  - apply body_step_speaks in Hb. contradiction.
  - apply body_step_speaks in Hb. destruct t; [contradiction|discriminate].
Qed.

Lemma loop_final st t st' :
  loop_events self st t (Ok st') ->
  Z.of_nat (List.length (improvement_history st)) = attempts st ->
  (t = [] /\ st' = st) \/ ended self st' t.
Proof.
  intros H. remember (Ok st') as out eqn:Hout. revert st' Hout.
  induction H as [st Hge|st t e Hlt Hb|st t st1 Hlt Hb
                 |st t st1 t' out Hlt Hb Hrest IH]; intros st' Hout Hlen.
  - inversion Hout. auto.
  - discriminate.
  - inversion Hout. subst. right. inversion Hb; subst.
    + left. exists q, []. auto.
    + right. exists msg, (record_of st msg), (improvement_history st), r, [].
      repeat split; auto.
  - inversion Hb; subst.
    assert (Hlen1 : Z.of_nat
                      (List.length
                         (improvement_history
                            (assign_improved (failed st msg) r)))
                    = attempts (assign_improved (failed st msg) r)).
    { simpl. rewrite length_app. simpl. lia. }
    destruct (IH _ eq_refl Hlen1) as [[-> ->]|Hend].
    + right. right.
      exists msg, (record_of st msg), (improvement_history st), r, [].
      split; [reflexivity|]. split; [reflexivity|].
      split; [reflexivity|]. split; [reflexivity|].
      split; [rewrite app_nil_r; reflexivity|].
      right. split; [assumption|]. split; [reflexivity|].
      rewrite Hlen1. apply loop_silent in Hrest. simpl in *. lia.
    + right.
      destruct Hend as [(q & pre & Hr & He & ->)
                       |(msg' & a & hist & r' & pre & Hr & He & Hh & Ha & -> & Hc)].
      * left. exists q, (cycle st msg (Ok r) ++ pre)%list.
        rewrite app_assoc. auto.
      * right. exists msg', a, hist, r', (cycle st msg (Ok r) ++ pre)%list.
        rewrite app_assoc. auto 10.
Qed.

Lemma loop_chain st t out :
  loop_events self st t out ->
  current_sql st <> "" ->
  match appended t with
  | [] => True
  | a :: _ => SQLImprovementAttempt.sql a = current_sql st
  end
  /\ forall prev, prev <> current_sql st -> chained prev (appended t).
Proof.
  induction 1 as [st Hge|st t e Hlt Hb|st t st1 Hlt Hb
                 |st t st1 t' out Hlt Hb Hrest IH]; intros Hsql.
  - simpl. auto.
  - inversion Hb; subst; simpl; (split; [auto|]); intros prev Hprev;
      simpl; repeat split; auto.
  - inversion Hb; subst; simpl; (split; [auto|]); intros prev Hprev;
      simpl; repeat split; auto.
  - inversion Hb as [| | | |msg r Hmsg Hprog]; subst.
    rewrite appended_app. simpl.
    split; [reflexivity|]. intros prev Hprev.
    split; [assumption|]. split; [congruence|].
    unfold stagnates in Hprog.
    apply IH; simpl; intros Heq; apply Hprog; [left|right]; congruence.
Qed.

Lemma loop_sql_kept st t st' :
  loop_events self st t (Ok st') ->
  current_sql st <> "" -> current_sql st' <> "".
Proof.
  intros H. remember (Ok st') as out eqn:Hout. revert st' Hout.
  induction H as [st Hge|st t e Hlt Hb|st t st1 Hlt Hb
                 |st t st1 t' out Hlt Hb Hrest IH]; intros st' Hout Hsql.
  - inversion Hout. subst. assumption.
  - discriminate.
  - inversion Hout. subst. inversion Hb; subst; assumption.
  - apply (IH _ Hout). inversion Hb as [| | | |msg r Hmsg Hprog]; subst.
    simpl. intros Heq. apply Hprog. left. assumption.
Qed.

Lemma chained_spec prev l :
  chained prev l ->
  (forall a, In a l -> SQLImprovementAttempt.sql a <> "")
  /\ (forall pre a b post,
        l = (pre ++ a :: b :: post)%list ->
        SQLImprovementAttempt.sql a <> SQLImprovementAttempt.sql b).
Proof.
  revert prev. induction l as [|x l IH]; intros prev Hc.
  - split; [intros a []|]. intros pre a b post H.
    destruct pre; discriminate.
  - destruct Hc as (Hne & _ & Hrest). destruct (IH _ Hrest) as [IH1 IH2].
    split.
    + intros a [<-|Hin]; auto.
    + intros pre a b post H. destruct pre as [|p pre]; simpl in H.
      * inversion H. subst. destruct Hrest as (_ & Hd & _). congruence.
      * inversion H. subst. eapply IH2. reflexivity.
Qed.

End Loop.

Section Properties.
Context {E : Env}.

(** X1.  The explanation of a response is the first generation's
    explanation followed by one paragraph "Improved SQL (attempt N): ..."
    for each repair that changed the SQL, numbered 1, 2, ... in order; a
    repair that made no progress adds nothing.  When the first generation
    gave no SQL it is "Failed to generate SQL: " and that explanation. *)
Theorem explanation_accumulates (self : SQLAgent.t) (natural_query : string)
    (w : world) (r : SQLAgentResponse.t) (m' : machine) :
  run self natural_query w = (Ok r, m') ->
  exists g t,
    trace m' = Generate (Ok g) :: t
    /\ SQLAgentResponse.explanation r
       = if is_empty (SQLGenerationResponse.sql_query g)
         then "Failed to generate SQL: " ++ SQLGenerationResponse.explanation g
         else SQLGenerationResponse.explanation g ++ improvements 1 t.
Proof.
  intros Hrun. apply run_sound in Hrun.
  inversion Hrun as [|g Hq|g t e Hq Hl|g t st Hq Hl]; subst.
  - exists g, []. split; [reflexivity|].
    rewrite (proj2 (is_empty_true _) Hq). reflexivity.
  - exists g, t. split; [reflexivity|].
    rewrite (proj2 (is_empty_false _) Hq).
    apply loop_explanation in Hl. simpl in Hl. exact Hl.
Qed.

(** X2.  With a budget [max_retries >= 0] a run calls [generate_sql]
    once and [execute_sql] at most [max_retries] times, and the number of
    executions is the number of repair calls or one more. *)
Theorem call_budget (self : SQLAgent.t) (natural_query : string)
    (w : world) (out : outcome SQLAgentResponse.t) (m' : machine) :
  (0 <= max_retries self)%Z ->
  run self natural_query w = (out, m') ->
  generations (trace m') = 1
  /\ (Z.of_nat (executions (trace m')) <= max_retries self)%Z
  /\ repair_cycles (trace m') <= executions (trace m')
     <= repair_cycles (trace m') + 1.
Proof.
  intros Hmax Hrun. apply run_sound in Hrun.
  assert (Hloop : forall g t o, loop_events self (entry g) t o ->
            generations (Generate (Ok g) :: t) = 1
            /\ (Z.of_nat (executions (Generate (Ok g) :: t))
                <= max_retries self)%Z
            /\ repair_cycles (Generate (Ok g) :: t)
               <= executions (Generate (Ok g) :: t)
               <= repair_cycles (Generate (Ok g) :: t) + 1).
  { intros g t o Hl. apply loop_calls in Hl.
    destruct Hl as (H1 & H2 & H3). simpl in H3.
    change (generations (Generate (Ok g) :: t)) with (S (generations t)).
    change (executions (Generate (Ok g) :: t)) with (executions t).
    change (repair_cycles (Generate (Ok g) :: t)) with (repair_cycles t).
    repeat split; lia. }
  inversion Hrun as [|g Hq|g t e Hq Hl|g t st Hq Hl]; subst;
    try (apply (Hloop _ _ _ Hl));
    unfold generations, executions, repair_cycles; simpl;
    repeat split; lia.
Qed.

(** X3.  An error in a response is of one of two kinds.  Either it is
    "Could not generate SQL query", with empty generated SQL and no
    history; or it starts with "SQL execution error: ", the generated SQL
    is not empty, and it is the error of the last record of the
    history. *)
Theorem error_kinds (self : SQLAgent.t) (natural_query : string)
    (w : world) (r : SQLAgentResponse.t) (m' : machine) (e : string) :
  run self natural_query w = (Ok r, m') ->
  SQLAgentResponse.error r = Some e ->
  (e = "Could not generate SQL query"
   /\ SQLAgentResponse.generated_sql r = "" /\ history r = [])
  \/ (exists pre a text,
        history r = (pre ++ [a])%list
        /\ SQLImprovementAttempt.error a = e
        /\ e = "SQL execution error: " ++ text
        /\ SQLAgentResponse.generated_sql r <> "").
Proof.
  intros Hrun He. pose proof (run_shaped _ _ _ _ _ Hrun) as Hshaped.
  apply run_sound in Hrun.
  inversion Hrun as [|g Hq|g t e' Hq Hl|g t st Hq Hl]; subst.
  - left. simpl in He. inversion He. auto.
  - right. simpl in He. rewrite history_response.
    pose proof (loop_sql_kept _ _ _ _ Hl Hq) as Hsql.
    destruct (loop_final _ _ _ _ Hl eq_refl) as [[-> ->]|Hend];
      [discriminate He|].
    destruct Hend as [(q & pre & _ & He' & _)
                     |(msg & a & hist & r' & pre & _ & He' & Hh & Ha & -> & _)];
      [congruence|].
    assert (msg = e) by congruence. subst msg.
    match goal with Heq : _ = trace m' |- _ => rewrite <- Heq in Hshaped end.
    apply Forall_inv_tail in Hshaped.
    apply Forall_app in Hshaped. destruct Hshaped as [_ Hcyc].
    apply Forall_inv in Hcyc. simpl in Hcyc.
    inversion Hcyc as [|text| | |]; subst.
    exists hist, a, text. auto.
Qed.

(** X4.  When a response carries a query result, the last step of the
    run was the execution of the response's generated SQL, and it returned
    that result. *)
Theorem result_is_last_execution (self : SQLAgent.t) (natural_query : string)
    (w : world) (r : SQLAgentResponse.t) (m' : machine)
    (q : SQLQueryResult.t) :
  run self natural_query w = (Ok r, m') ->
  SQLAgentResponse.query_result r = Some q ->
  exists pre,
    trace m'
    = (pre ++ [Execute (SQLAgentResponse.generated_sql r)
                 (Ok (Some q, None))])%list.
Proof.
  intros Hrun Hres. apply run_sound in Hrun.
  inversion Hrun as [|g Hq|g t e' Hq Hl|g t st Hq Hl]; subst.
  - discriminate Hres.
  - simpl in Hres.
    destruct (loop_final _ _ _ _ Hl eq_refl) as [[-> ->]|Hend];
      [discriminate Hres|].
    destruct Hend as [(q' & pre & Hr & _ & ->)
                     |(msg & a & hist & r' & pre & Hr & _)];
      [|congruence].
    assert (q' = q) by congruence. subst q'.
    exists (Generate (Ok g) :: pre). reflexivity.
Qed.

(** X5.  When a response carries an error and a history, the last steps
    of the run were the failed execution of the last record's SQL, its
    record, and a repair call.  The generated SQL of the response is that
    failed SQL, or else the history has [max_retries] records and the
    generated SQL is what the last repair returned: it differs from the
    failed SQL and the run ended without executing it. *)
Theorem unexecuted_repair (self : SQLAgent.t) (natural_query : string)
    (w : world) (r : SQLAgentResponse.t) (m' : machine) (e : string)
    (pre : list SQLImprovementAttempt.t) (a : SQLImprovementAttempt.t) :
  run self natural_query w = (Ok r, m') ->
  SQLAgentResponse.error r = Some e ->
  history r = (pre ++ [a])%list ->
  exists before repaired,
    trace m'
    = (before ++ [Execute (SQLImprovementAttempt.sql a) (Ok (None, Some e));
                  Append a;
                  Improve (SQLImprovementAttempt.sql a) e (Ok repaired)])%list
    /\ (SQLAgentResponse.generated_sql r = SQLImprovementAttempt.sql a
        \/ (SQLAgentResponse.generated_sql r
            = SQLGenerationResponse.sql_query repaired
            /\ SQLAgentResponse.generated_sql r <> SQLImprovementAttempt.sql a
            /\ Z.of_nat (List.length (history r)) = max_retries self)).
Proof.
  intros Hrun He Hh. apply run_sound in Hrun.
  inversion Hrun as [|g Hq|g t e' Hq Hl|g t st Hq Hl]; subst.
  - destruct pre; discriminate Hh.
  - simpl in He. rewrite history_response in *.
    destruct (loop_final _ _ _ _ Hl eq_refl) as [[-> ->]|Hend];
      [discriminate He|].
    destruct Hend as [(q & before & _ & He' & _)
                     |(msg & a' & hist & r' & before & _ & He' & Hh' & Ha
                       & Ht & Hc)];
      [congruence|].
    assert (Hmsg : msg = e) by congruence.
    rewrite Hh' in Hh. apply app_inj_tail in Hh. destruct Hh as [Hpre Haa].
    rewrite Hmsg, Haa in *. clear Hmsg Haa.
    exists (Generate (Ok g) :: before), r'. split; [rewrite Ht; reflexivity|].
    simpl. destruct Hc as [[_ Hs]|(Hprog & Hs & Hlen)].
    + left. assumption.
    + right. rewrite Hs. split; [reflexivity|]. split.
      * intros Heq. apply Hprog. right. assumption.
      * exact Hlen.
Qed.

(** X6.  The first record of a history holds the SQL of the first
    generation; the SQL of every record is not empty; and two consecutive
    records never hold the same SQL. *)
Theorem history_sql_chain (self : SQLAgent.t) (natural_query : string)
    (w : world) (r : SQLAgentResponse.t) (m' : machine) :
  run self natural_query w = (Ok r, m') ->
  (forall g t a rest,
      trace m' = Generate (Ok g) :: t ->
      history r = a :: rest ->
      SQLImprovementAttempt.sql a = SQLGenerationResponse.sql_query g)
  /\ (forall a, In a (history r) -> SQLImprovementAttempt.sql a <> "")
  /\ (forall pre a b post,
        history r = (pre ++ a :: b :: post)%list ->
        SQLImprovementAttempt.sql a <> SQLImprovementAttempt.sql b).
Proof.
  intros Hrun. apply run_sound in Hrun.
  inversion Hrun as [|g Hq|g t e' Hq Hl|g t st Hq Hl]; subst.
  - split; [intros g' t a rest _ Ha; discriminate Ha|].
    split; [intros a []|]. intros pre a b post Ha. destruct pre; discriminate.
  - rewrite history_response. rewrite (loop_history _ _ _ _ Hl). simpl.
    destruct (loop_chain _ _ _ _ Hl Hq) as [Hfirst Hchain].
    simpl in Hfirst, Hchain.
    split.
    + intros g' t' a rest Ht Ha. inversion Ht. subst.
      rewrite Ha in Hfirst. assumption.
    + apply (chained_spec ""). apply Hchain. congruence.
Qed.

End Properties.

Lemma explanation_accumulates_witness :
  exists r m',
    @run Scripted.env (Scripted.agent 3) Scripted.question Scripted.never_right
    = (Ok r, m')
    /\ exists g t,
         trace m' = Generate (Ok g) :: t
         /\ SQLAgentResponse.explanation r
            = if is_empty (SQLGenerationResponse.sql_query g)
              then "Failed to generate SQL: "
                   ++ SQLGenerationResponse.explanation g
              else SQLGenerationResponse.explanation g ++ improvements 1 t.
Proof.
  assert (H : @run Scripted.env (Scripted.agent 3) Scripted.question
                Scripted.never_right = Scripted.never_right_run)
    by reflexivity.
  unfold Scripted.never_right_run in H.
  do 2 eexists. split; [exact H|].
  apply (explanation_accumulates _ _ _ _ _ H).
Defined.

Lemma call_budget_witness :
  exists out m',
    (0 <= max_retries (Scripted.agent 3))%Z
    /\ @run Scripted.env (Scripted.agent 3) Scripted.question
         Scripted.never_right = (out, m')
    /\ executions (trace m') = 3
    /\ generations (trace m') = 1
    /\ (Z.of_nat (executions (trace m')) <= 3)%Z
    /\ repair_cycles (trace m') <= executions (trace m')
       <= repair_cycles (trace m') + 1.
Proof.
  assert (H : @run Scripted.env (Scripted.agent 3) Scripted.question
                Scripted.never_right = Scripted.never_right_run)
    by reflexivity.
  unfold Scripted.never_right_run in H.
  do 2 eexists. split; [simpl; lia|]. split; [exact H|].
  split; [reflexivity|].
  refine (call_budget _ _ _ _ _ _ H). simpl. lia.
Defined.

Lemma error_kinds_witness :
  exists r m' e,
    @run Scripted.env (Scripted.agent 3) Scripted.question Scripted.stuck
    = (Ok r, m')
    /\ SQLAgentResponse.error r = Some e
    /\ e = "SQL execution error: no such table: custmers"
    /\ ((e = "Could not generate SQL query"
         /\ SQLAgentResponse.generated_sql r = "" /\ history r = [])
        \/ (exists pre a text,
              history r = (pre ++ [a])%list
              /\ SQLImprovementAttempt.error a = e
              /\ e = "SQL execution error: " ++ text
              /\ SQLAgentResponse.generated_sql r <> "")).
Proof.
  assert (H : @run Scripted.env (Scripted.agent 3) Scripted.question
                Scripted.stuck = Scripted.stuck_run)
    by reflexivity.
  unfold Scripted.stuck_run in H.
  do 3 eexists. split; [exact H|]. split; [reflexivity|].
  split; [reflexivity|].
  apply (error_kinds _ _ _ _ _ _ H). reflexivity.
Defined.

Lemma result_is_last_execution_witness :
  exists r m' q,
    @run Scripted.env (Scripted.agent 3) Scripted.question
      Scripted.typo_then_fixed = (Ok r, m')
    /\ SQLAgentResponse.query_result r = Some q
    /\ SQLAgentResponse.generated_sql r = "SELECT * FROM customers"
    /\ exists pre,
         trace m'
         = (pre ++ [Execute (SQLAgentResponse.generated_sql r)
                      (Ok (Some q, None))])%list.
Proof.
  assert (H : @run Scripted.env (Scripted.agent 3) Scripted.question
                Scripted.typo_then_fixed = Scripted.typo_run)
    by reflexivity.
  unfold Scripted.typo_run in H.
  do 3 eexists. split; [exact H|]. split; [reflexivity|].
  split; [reflexivity|].
  apply (result_is_last_execution _ _ _ _ _ _ H). reflexivity.
Defined.

Lemma unexecuted_repair_witness :
  exists r m' e pre a,
    @run Scripted.env (Scripted.agent 3) Scripted.question Scripted.never_right
    = (Ok r, m')
    /\ SQLAgentResponse.error r = Some e
    /\ history r = (pre ++ [a])%list
    /\ SQLAgentResponse.generated_sql r = "SELECT * FROM customerz"
    /\ SQLImprovementAttempt.sql a = "SELECT * FROM cusomers"
    /\ exists before repaired,
         trace m'
         = (before
            ++ [Execute (SQLImprovementAttempt.sql a) (Ok (None, Some e));
                Append a;
                Improve (SQLImprovementAttempt.sql a) e (Ok repaired)])%list
         /\ (SQLAgentResponse.generated_sql r = SQLImprovementAttempt.sql a
             \/ (SQLAgentResponse.generated_sql r
                 = SQLGenerationResponse.sql_query repaired
                 /\ SQLAgentResponse.generated_sql r
                    <> SQLImprovementAttempt.sql a
                 /\ Z.of_nat (List.length (history r))
                    = max_retries (Scripted.agent 3))).
Proof.
  assert (H : @run Scripted.env (Scripted.agent 3) Scripted.question
                Scripted.never_right = Scripted.never_right_run)
    by reflexivity.
  unfold Scripted.never_right_run in H.
  do 3 eexists. eexists (_ :: _ :: nil). eexists.
  split; [exact H|]. split; [reflexivity|]. split; [reflexivity|].
  split; [reflexivity|]. split; [reflexivity|].
  eapply (unexecuted_repair _ _ _ _ _ _ (_ :: _ :: nil) _ H); reflexivity.
Defined.

Lemma history_sql_chain_witness :
  exists r m' a b c,
    @run Scripted.env (Scripted.agent 3) Scripted.question Scripted.never_right
    = (Ok r, m')
    /\ history r = [a; b; c]
    /\ SQLImprovementAttempt.sql a <> SQLImprovementAttempt.sql b
    /\ SQLImprovementAttempt.sql c <> "".
Proof.
  assert (H : @run Scripted.env (Scripted.agent 3) Scripted.question
                Scripted.never_right = Scripted.never_right_run)
    by reflexivity.
  unfold Scripted.never_right_run in H.
  do 5 eexists. split; [exact H|]. split; [reflexivity|].
  destruct (history_sql_chain _ _ _ _ _ H) as (_ & Hne & Hdiff).
  split.
  - eapply (Hdiff [] _ _ (_ :: nil)). reflexivity.
  - apply Hne. simpl. auto.
Defined.

End Runs.

(* ===================================================================== *)
(** ** The rows [execute_sql] returns *)
(* ===================================================================== *)

Module Rows.
Import PyStr PyVal Models World SQLAgent Steps Sound.

Lemma comprehension_nth {A B} (f : A -> exn + B) (l : list A) ys :
  comprehension f l = inr ys ->
  forall i x, nth_error l i = Some x ->
              exists y, nth_error ys i = Some y /\ f x = inr y.
Proof.
  revert ys. induction l as [|x0 l IH]; simpl; intros ys H i x Hi.
  - destruct i; discriminate.
  - destruct (f x0) as [e|y0] eqn:Hx; [discriminate|].
    destruct (comprehension f l) as [e|zs]; [discriminate|].
    inversion H. subst. destruct i as [|i]; simpl in *.
    + inversion Hi. subst. exists y0. auto.
    + eapply IH; [reflexivity | eassumption].
Qed.

Lemma comprehension_all {A B} (f : A -> exn + B) (P : B -> Prop) l ys :
  comprehension f l = inr ys ->
  (forall x y, In x l -> f x = inr y -> P y) ->
  Forall P ys.
Proof.
  revert ys. induction l as [|x0 l IH]; simpl; intros ys H HP.
  - inversion H. constructor.
  - destruct (f x0) as [e|y0] eqn:Hx; [discriminate|].
    destruct (comprehension f l) as [e|zs]; [discriminate|].
    inversion H. subst. constructor.
    + apply (HP x0); auto.
    + apply IH; [reflexivity|]. intros x y Hin. apply HP. auto.
Qed.

(** [row[col]] only looks at the name with its case folded. *)
Lemma row_get_lower description row a b :
  lower a = lower b -> row_get description row a = row_get description row b.
Proof.
  intros Hab. revert row.
  induction description as [|name d IH]; intros [|v row]; simpl;
    try reflexivity.
  rewrite Hab. destruct (String.eqb (lower b) (lower name)); auto.
Qed.

(** Passing over columns with other names. *)
Lemma row_get_skip (pre_d : list string) (pre_row : list cell) d row col :
  List.length pre_d = List.length pre_row ->
  ~ In (lower col) (map lower pre_d) ->
  row_get (pre_d ++ d) (pre_row ++ row) col = row_get d row col.
Proof.
  revert pre_row. induction pre_d as [|name pre_d IH];
    intros [|v pre_row] Hlen Hnot; simpl in *; try discriminate.
  - reflexivity.
  - destruct (String.eqb (lower col) (lower name)) eqn:Heq.
    + apply String.eqb_eq in Heq. exfalso. apply Hnot. left. congruence.
    + apply IH; [congruence|]. intros Hin. apply Hnot. right. assumption.
Qed.

Lemma comprehension_same_row (pre_d : list string) (pre_row : list cell) d row :
  List.length pre_d = List.length pre_row ->
  List.length d = List.length row ->
  NoDup (map lower (pre_d ++ d)) ->
  comprehension (row_get (pre_d ++ d) (pre_row ++ row)) d = inr row.
Proof.
  revert pre_d pre_row row. induction d as [|name d IH];
    intros pre_d pre_row [|v row] Hpre Hlen Hnodup; simpl in *;
    try discriminate; [reflexivity|].
  assert (Hnot : ~ In (lower name) (map lower pre_d)).
  { rewrite map_app in Hnodup. simpl in Hnodup.
    apply NoDup_remove_2 in Hnodup. intros Hin. apply Hnodup.
    apply in_or_app. left. assumption. }
  rewrite (row_get_skip pre_d pre_row (name :: d) (v :: row) name Hpre Hnot).
  simpl. rewrite String.eqb_refl.
  specialize (IH (pre_d ++ [name])%list (pre_row ++ [v])%list row).
  rewrite <- !app_assoc in IH. simpl in IH. rewrite IH; [reflexivity| | |].
  - rewrite !length_app. simpl. congruence.
  - congruence.
  - assumption.
Qed.

Lemma comprehension_same_rows d (rows : list (list cell)) :
  NoDup (map lower d) ->
  Forall (fun row => List.length row = List.length d) rows ->
  comprehension (fun row => comprehension (row_get d row) d) rows = inr rows.
Proof.
  intros Hnodup. induction 1 as [|row rows Hrow _ IH]; simpl; [reflexivity|].
  pose proof (comprehension_same_row [] [] d row eq_refl (eq_sym Hrow) Hnodup)
    as Hsame.
  simpl in Hsame. rewrite Hsame, IH. reflexivity.
Qed.

Section Properties.
Context {E : Env}.

(** X7.  The rows of a successful [execute_sql] all have as many cells
    as there are columns. *)
Theorem rows_are_rectangular (sql_query : string) (m : machine)
    (res : SQLQueryResult.t) (err : option string) (m' : machine) :
  execute_sql sql_query m = (Ok (Some res, err), m') ->
  Forall (fun row => List.length row = List.length (SQLQueryResult.columns res))
    (SQLQueryResult.rows res).
Proof.
  unfold execute_sql, traced.
  destruct (cursor_run (now m) sql_query) as [c w'].
  destruct c as [description rows|msg|msg]; simpl;
    try (intros H; inversion H; fail).
  destruct rows as [|row rows].
  - intros H. inversion H. subst. constructor.
  - destruct description as [columns|]; [|intros H; inversion H].
    match goal with |- context [comprehension ?f ?l] =>
      destruct (comprehension f l) as [e|row_data] eqn:Hrows end;
      intros H; inversion H; subst; simpl.
    eapply comprehension_all; [exact Hrows|].
    intros x y _ Hy. apply comprehension_length in Hy. assumption.
Qed.

(** X8.  When the column names differ from one another, case ignored,
    and every fetched row has one value per column, [execute_sql] returns
    the described columns and the fetched rows unchanged. *)
Theorem distinct_columns_keep_rows (sql_query : string) (m : machine)
    (description : list string) (row : list cell) (rows : list (list cell))
    (w' : world) :
  cursor_run (now m) sql_query = (Fetched (Some description) (row :: rows), w') ->
  NoDup (map lower description) ->
  Forall (fun r => List.length r = List.length description) (row :: rows) ->
  fst (execute_sql sql_query m)
  = Ok (Some {| SQLQueryResult.columns := description;
                SQLQueryResult.rows := row :: rows;
                SQLQueryResult.row_count :=
                  Z.of_nat (List.length (row :: rows)) |}, None).
Proof.
  intros Hc Hnodup Hrows. unfold execute_sql, traced. rewrite Hc.
  cbn [execute_result fst].
  rewrite (comprehension_same_rows description (row :: rows) Hnodup Hrows).
  reflexivity.
Qed.

(** X9.  When two columns of a result have the same name, case ignored,
    every returned row holds the same cell in both places: [row[col]]
    finds the first column of that name for both. *)
Theorem same_name_same_cell (sql_query : string) (m : machine)
    (res : SQLQueryResult.t) (err : option string) (m' : machine)
    (i j : nat) (a b : string) :
  execute_sql sql_query m = (Ok (Some res, err), m') ->
  nth_error (SQLQueryResult.columns res) i = Some a ->
  nth_error (SQLQueryResult.columns res) j = Some b ->
  lower a = lower b ->
  Forall (fun row => nth_error row i = nth_error row j)
    (SQLQueryResult.rows res).
Proof.
  unfold execute_sql, traced.
  destruct (cursor_run (now m) sql_query) as [c w'].
  destruct c as [description rows|msg|msg]; simpl;
    try (intros H; inversion H; fail).
  destruct rows as [|row rows].
  - intros H. inversion H. subst. constructor.
  - destruct description as [columns|]; [|intros H; inversion H].
    match goal with |- context [comprehension ?f ?l] =>
      destruct (comprehension f l) as [e|row_data] eqn:Hrows end;
      intros H; inversion H; subst; simpl.
    intros Hi Hj Hab.
    eapply comprehension_all; [exact Hrows|].
    intros x y _ Hy.
    destruct (comprehension_nth _ _ _ Hy _ _ Hi) as (ci & Hci & Hgi).
    destruct (comprehension_nth _ _ _ Hy _ _ Hj) as (cj & Hcj & Hgj).
    rewrite (row_get_lower _ _ _ _ Hab) in Hgi.
    rewrite Hci, Hcj. congruence.
Qed.

End Properties.

Lemma distinct_columns_keep_rows_witness :
  fst (@execute_sql Scripted.env "SELECT * FROM customers"
         (Scripted.fresh Scripted.listing))
  = Ok (Some {| SQLQueryResult.columns := ["customer_id"; "name"];
                SQLQueryResult.rows :=
                  [[CInt 1; CText "Ann"]; [CInt 2; CText "Bob"]];
                SQLQueryResult.row_count := 2 |}, None).
Proof.
  refine (@distinct_columns_keep_rows Scripted.env "SELECT * FROM customers"
            (Scripted.fresh Scripted.listing) ["customer_id"; "name"]
            [CInt 1; CText "Ann"] [[CInt 2; CText "Bob"]]
            {| Scripted.replies := []; Scripted.answers := [] |}
            eq_refl _ _).
  - repeat constructor; simpl; intuition discriminate.
  - repeat constructor.
Defined.

Lemma rows_are_rectangular_witness :
  exists res err m',
    @execute_sql Scripted.env "SELECT c.customer_id, c.name, o.customer_id"
      (Scripted.fresh Scripted.joined) = (Ok (Some res, err), m')
    /\ Forall (fun row => List.length row = 3) (SQLQueryResult.rows res).
Proof.
  do 3 eexists. split; [reflexivity|].
  exact (@rows_are_rectangular Scripted.env
           "SELECT c.customer_id, c.name, o.customer_id"
           (Scripted.fresh Scripted.joined) _ _ _ eq_refl).
Defined.

Lemma same_name_same_cell_witness :
  exists res err m',
    @execute_sql Scripted.env "SELECT c.customer_id, c.name, o.customer_id"
      (Scripted.fresh Scripted.joined) = (Ok (Some res, err), m')
    /\ SQLQueryResult.rows res = [[CInt 1; CText "Ann"; CInt 1]]
    /\ Forall (fun row => nth_error row 0 = nth_error row 2)
         (SQLQueryResult.rows res).
Proof.
  do 3 eexists. split; [reflexivity|]. split; [reflexivity|].
  exact (@same_name_same_cell Scripted.env
           "SELECT c.customer_id, c.name, o.customer_id"
           (Scripted.fresh Scripted.joined) _ _ _ 0 2
           "customer_id" "Customer_ID" eq_refl eq_refl eq_refl eq_refl).
Defined.

End Rows.

(* ===================================================================== *)
(** ** More about [_extract_sql_from_response] *)
(* ===================================================================== *)

Module Extraction.
Import PyStr PyVal Models LLMClient Forms StrFacts.

(** [split] always gives at least one piece, and at least two when the
    separator occurs. *)
Lemma split_go_some (sep : string) (s : string) :
  forall skip cur, exists p rest, split_go sep skip cur s = p :: rest.
Proof.
  induction s as [|c s IH]; intros skip cur; cbn [split_go].
  - eauto.
  - destruct skip as [|k]; [|apply IH].
    destruct (prefix sep (String c s)); [eauto | apply IH].
Qed.

Lemma split_go_found (a : ascii) (sep' : string) (s : string) :
  forall cur,
    contains (String a sep') s = true ->
    exists p q rest, split_go (String a sep') 0 cur s = p :: q :: rest.
Proof.
  induction s as [|c s IH]; intros cur Hc.
  - discriminate Hc.
  - cbn [contains] in Hc. cbn [split_go].
    destruct (prefix (String a sep') (String c s)) eqn:Hp.
    + destruct (split_go_some (String a sep') s
                  (String.length (String a sep') - 1) [])
        as (q & rest & ->).
      eauto.
    + simpl in Hc. apply IH. assumption.
Qed.

Lemma split_found (a : ascii) (sep' : string) (s : string) :
  contains (String a sep') s = true ->
  exists p q rest, split (String a sep') s = p :: q :: rest.
Proof. apply split_go_found. Qed.

Lemma split_some (sep s : string) : exists p rest, split sep s = p :: rest.
Proof. apply split_go_some. Qed.

Lemma drop_space_clean (l : list ascii) : clean_head (drop_space l).
Proof.
  induction l as [|c l IH]; simpl; [exact I|].
  destruct (is_space c) eqn:Hc; [assumption | simpl; assumption].
Qed.

Lemma drop_space_fixed (l : list ascii) : clean_head l -> drop_space l = l.
Proof. destruct l as [|c l]; simpl; [reflexivity|]. intros ->. reflexivity. Qed.

Lemma drop_space_last (l : list ascii) (c : ascii) :
  is_space c = false -> exists x, drop_space (l ++ [c]) = (x ++ [c])%list.
Proof.
  intros Hc. induction l as [|d l IH]; simpl.
  - rewrite Hc. exists []. reflexivity.
  - destruct (is_space d); [assumption|]. exists (d :: l). reflexivity.
Qed.

Lemma strip_chars_fixed (l : list ascii) :
  strip_chars (strip_chars l) = strip_chars l.
Proof.
  unfold strip_chars.
  set (d := drop_space l).
  assert (Hd : clean_head d) by apply drop_space_clean.
  assert (Hhead : clean_head (rev (drop_space (rev d)))).
  { destruct d as [|c d']; [exact I|]. simpl in Hd. simpl rev.
    destruct (drop_space_last (rev d') c Hd) as [x ->].
    rewrite rev_app_distr. simpl. assumption. }
  rewrite (drop_space_fixed _ Hhead), rev_involutive.
  rewrite (drop_space_fixed (drop_space (rev d)) (drop_space_clean _)).
  reflexivity.
Qed.

Lemma strip_fixed (s : string) : strip (strip s) = strip s.
Proof.
  unfold strip. rewrite list_ascii_of_string_of_list_ascii, strip_chars_fixed.
  reflexivity.
Qed.

Lemma capture_none (lines : list string) :
  Forall (fun line => contains "SELECT" (upper line) = false) lines ->
  capture_lines lines false = [].
Proof.
  induction 1 as [|line lines Hline _ IH]; simpl; [reflexivity|].
  rewrite Hline. simpl. assumption.
Qed.

Lemma length_app_string (a b : string) :
  String.length (a ++ b) = String.length a + String.length b.
Proof. induction a as [|x a IH]; simpl; [reflexivity|]. rewrite IH. reflexivity. Qed.

Lemma take_length (n : nat) (s : string) : String.length (take n s) <= n.
Proof.
  unfold take. revert s. induction n as [|n IH]; intros [|c s]; simpl;
    try lia. specialize (IH s). lia.
Qed.

(** What methods 2 and 5 return are two strings. *)
Lemma method2_strings (content : string) d :
  method2 content = Returns d ->
  exists q, d = {| dict_sql_query := PStr q;
                   dict_explanation :=
                     PStr "Extracted SQL query from code block" |}.
Proof.
  unfold method2.
  destruct (index (split fence content) 1) as [e|after]; [discriminate|].
  destruct (index (split fence after) 0) as [e|inner]; [discriminate|].
  destruct (startswith "sql" (lower (strip inner)));
    intros H; inversion H; eauto.
Qed.

Lemma method5_strings (content : string) d :
  method5 content = Returns d ->
  exists q, d = {| dict_sql_query := PStr q;
                   dict_explanation := PStr "Extracted SQL query from text" |}.
Proof.
  unfold method5.
  destruct (contains "SELECT" (upper content) || contains "FROM" (upper content));
    [|discriminate].
  destruct (capture_lines (split newline content) false); [discriminate|].
  intros H. inversion H. eauto.
Qed.

Section Properties.

Variable json_loads : string -> option pyval.

(** X10.  White space around the text does not change what is
    extracted. *)
Theorem surrounding_space_ignored (content : string) :
  _extract_sql_from_response json_loads (strip content)
  = _extract_sql_from_response json_loads content.
Proof.
  unfold _extract_sql_from_response. rewrite strip_fixed. reflexivity.
Qed.

(** X11.  When the text has a [```json] fence and what stands between
    it and the next fence decodes to an object with the keys [sql_query]
    and [explanation], the result is exactly the two values of that
    object, whatever they are and whatever surrounds the block. *)
Theorem json_block_wins (content after inner : string)
    (items : list (string * pyval)) (q x : pyval) :
  let c := strip content in
  contains json_fence c = true ->
  nth_error (split json_fence c) 1 = Some after ->
  nth_error (split fence after) 0 = Some inner ->
  json_loads (strip inner) = Some (PDict items) ->
  dict_get "sql_query" items = Some q ->
  dict_get "explanation" items = Some x ->
  _extract_sql_from_response json_loads content
  = {| dict_sql_query := q; dict_explanation := x |}.
Proof.
  intros c Hj Hafter Hinner Hloads Hq Hx.
  unfold _extract_sql_from_response. fold c.
  unfold chain, fenced_step. rewrite Hj.
  assert (H1 : method1 json_loads c
               = Returns {| dict_sql_query := q; dict_explanation := x |}).
  { unfold method1, index. rewrite Hafter, Hinner.
    unfold loads_and_accept. rewrite Hloads.
    unfold accept_object, py_in, py_get, dict_has. rewrite Hq, Hx.
    reflexivity. }
  rewrite H1. reflexivity.
Qed.

(** X12.  When the text has a fence but no [```json] fence, the result
    is the stripped text between the first fence and the next one, without
    its first three characters when they read "sql" in any case, and the
    explanation is "Extracted SQL query from code block".  The decoder is
    not consulted and methods 3, 4 and 5 do not run. *)
Theorem code_block_wins (content : string) :
  let c := strip content in
  contains json_fence c = false ->
  contains fence c = true ->
  exists after inner,
    nth_error (split fence c) 1 = Some after
    /\ nth_error (split fence after) 0 = Some inner
    /\ chain json_loads c = [(Method2, method2 c)]
    /\ _extract_sql_from_response json_loads content
       = {| dict_sql_query :=
              PStr (if startswith "sql" (lower (strip inner))
                    then strip (drop 3 (strip inner))
                    else strip inner);
            dict_explanation := PStr "Extracted SQL query from code block" |}.
Proof.
  intros c Hj Hf.
  destruct (split_found _ _ c Hf) as (p & after & rest & Hsplit).
  destruct (split_some fence after) as (inner & rest' & Hsplit').
  exists after, inner.
  assert (Hafter : nth_error (split fence c) 1 = Some after)
    by exact (f_equal (fun l => nth_error l 1) Hsplit).
  assert (Hinner : nth_error (split fence after) 0 = Some inner)
    by exact (f_equal (fun l => nth_error l 0) Hsplit').
  assert (H2 : method2 c
               = Returns
                   {| dict_sql_query :=
                        PStr (if startswith "sql" (lower (strip inner))
                              then strip (drop 3 (strip inner))
                              else strip inner);
                      dict_explanation :=
                        PStr "Extracted SQL query from code block" |}).
  { unfold method2, index. rewrite Hafter, Hinner.
    destruct (startswith "sql" (lower (strip inner))); reflexivity. }
  split; [assumption|]. split; [assumption|].
  unfold _extract_sql_from_response. fold c.
  unfold chain, fenced_step. rewrite Hj, Hf, H2. split; reflexivity.
Qed.

(** X13.  When the text has no fence, the text from its first ['{'] to
    its last ['}'] decodes to an object with the keys [sql_query] and
    [explanation], the result is exactly the two values of that object,
    whatever stands before and after the braces. *)
Theorem braces_object_wins (content : string)
    (items : list (string * pyval)) (q x : pyval) :
  let c := strip content in
  contains fence c = false ->
  (0 <= find "{" c < rfind "}" c + 1)%Z ->
  json_loads (slice (find "{" c) (rfind "}" c + 1) c) = Some (PDict items) ->
  dict_get "sql_query" items = Some q ->
  dict_get "explanation" items = Some x ->
  _extract_sql_from_response json_loads content
  = {| dict_sql_query := q; dict_explanation := x |}.
Proof.
  intros c Hf Hidx Hloads Hq Hx.
  assert (Hj : contains json_fence c = false).
  { destruct (contains json_fence c) eqn:Hj; [|reflexivity].
    change json_fence with (fence ++ "json") in Hj.
    apply contains_longer in Hj. congruence. }
  unfold _extract_sql_from_response. fold c.
  unfold chain, fenced_step. rewrite Hj, Hf.
  assert (H3 : method3 json_loads c
               = Returns {| dict_sql_query := q; dict_explanation := x |}).
  { unfold method3.
    replace ((0 <=? find "{" c) && (find "{" c <? rfind "}" c + 1))%Z
      with true
      by (symmetry; apply andb_true_iff; split;
          [apply Z.leb_le | apply Z.ltb_lt]; lia).
    unfold loads_and_accept. rewrite Hloads.
    unfold accept_object, py_in, py_get, dict_has. rewrite Hq, Hx.
    reflexivity. }
  cbn [returned last app run_methods]. rewrite H3. reflexivity.
Qed.

(** X14.  When the text has no fence, methods 3 and 4 find no object
    with the two keys, and the text does not hold SELECT in any case, the
    result is the parse error: an empty [sql_query] and the explanation
    "Error parsing LLM response: ", the first 100 characters of the
    stripped text and "...", at most 131 characters.  This is so even when
    the text holds FROM. *)
Theorem no_select_is_parse_error (content : string) :
  let c := strip content in
  contains fence c = false ->
  falls_through (method3 json_loads c) ->
  falls_through (method4 json_loads c) ->
  contains "SELECT" (upper c) = false ->
  _extract_sql_from_response json_loads content
  = {| dict_sql_query := PStr "";
       dict_explanation :=
         PStr ("Error parsing LLM response: " ++ take 100 c ++ "...") |}
  /\ String.length ("Error parsing LLM response: " ++ take 100 c ++ "...")
     <= 131.
Proof.
  intros c Hf H3 H4 Hsel. split.
  - assert (Hj : contains json_fence c = false).
    { destruct (contains json_fence c) eqn:Hj; [|reflexivity].
      change json_fence with (fence ++ "json") in Hj.
      apply contains_longer in Hj. congruence. }
    assert (H5 : method5 c = Falls).
    { unfold method5. rewrite Hsel. cbn [orb].
      destruct (contains "FROM" (upper c)); [|reflexivity].
      rewrite capture_none; [reflexivity|].
      apply Forall_forall. intros line Hin.
      destruct (contains "SELECT" (upper line)) eqn:Hline; [|reflexivity].
      rewrite (contains_upper_line _ _ _ _ Hin Hline) in Hsel.
      discriminate Hsel. }
    unfold _extract_sql_from_response. fold c.
    unfold chain, fenced_step. rewrite Hj, Hf.
    cbn [returned last app run_methods].
    destruct (method3 json_loads c) eqn:E3;
      [| |exfalso; eapply H3; reflexivity];
      (destruct (method4 json_loads c) eqn:E4;
       [| |exfalso; eapply H4; reflexivity]);
      rewrite H5; reflexivity.
  - rewrite !length_app_string. pose proof (take_length 100 c). simpl. lia.
Qed.

(** X15.  The response model can reject an extracted dict only when one
    of the decoding methods 1, 3 and 4 returned it: what methods 2 and 5
    and the parse error give are two strings, which every [str] field
    accepts. *)
Theorem only_objects_are_rejected (coerce_scalar : pyval -> option string)
    (content : string) (e : exn) :
  let c := strip content in
  let d := _extract_sql_from_response json_loads content in
  make_generation_response coerce_scalar (dict_sql_query d)
    (dict_explanation d) = inl e ->
  exists m, In m [Method1; Method3; Method4]
            /\ run_method json_loads m c = Returns d.
Proof.
  intros c d. subst d.
  unfold _extract_sql_from_response. fold c.
  unfold chain, fenced_step.
  destruct (contains json_fence c) eqn:Hj;
    [destruct (method1 json_loads c) eqn:H1
    |destruct (contains fence c) eqn:Hf;
       [destruct (method2 c) eqn:H2|]];
    cbn [returned last app run_methods];
    try (destruct (method3 json_loads c) eqn:H3;
         try (destruct (method4 json_loads c) eqn:H4;
              try (destruct (method5 c) eqn:H5)));
    cbn [run_methods returned last app];
    try (intros H; discriminate H);
    try (exists Method1; split; [simpl; tauto | assumption]);
    try (exists Method3; split; [simpl; tauto | assumption]);
    try (exists Method4; split; [simpl; tauto | assumption]);
    try (destruct (method2_strings _ _ H2) as [q ->];
         intros H; discriminate H);
    try (destruct (method5_strings _ _ H5) as [q ->];
         intros H; discriminate H).
Qed.

End Properties.

Lemma json_block_wins_witness :
  _extract_sql_from_response Scripted.loads Scripted.null_in_block
  = {| dict_sql_query := PNone;
       dict_explanation := PStr "no matching table" |}.
Proof.
  refine (json_block_wins Scripted.loads Scripted.null_in_block _ _
            _ PNone (PStr "no matching table")
            eq_refl eq_refl eq_refl eq_refl eq_refl eq_refl).
Defined.

Lemma code_block_wins_witness :
  contains json_fence (strip Scripted.sql_block) = false
  /\ contains fence (strip Scripted.sql_block) = true
  /\ _extract_sql_from_response Scripted.loads Scripted.sql_block
     = {| dict_sql_query := PStr "SELECT name FROM customers;";
          dict_explanation := PStr "Extracted SQL query from code block" |}.
Proof.
  split; [reflexivity|]. split; [reflexivity|].
  destruct (code_block_wins Scripted.loads Scripted.sql_block
              eq_refl eq_refl)
    as (after & inner & Hafter & Hinner & _ & ->).
  vm_compute in Hafter. inversion Hafter. subst after.
  vm_compute in Hinner. inversion Hinner. subst inner.
  reflexivity.
Defined.

Lemma braces_object_wins_witness :
  _extract_sql_from_response Scripted.loads
    Scripted.null_object
  = {| dict_sql_query := PNone;
       dict_explanation := PStr "no matching table" |}.
Proof.
  refine (braces_object_wins Scripted.loads Scripted.null_object
            _ PNone (PStr "no matching table")
            eq_refl _ eq_refl eq_refl eq_refl).
  vm_compute. split; [discriminate | reflexivity].
Defined.

Lemma no_select_is_parse_error_witness :
  _extract_sql_from_response Scripted.loads "Take it from the orders table."
  = {| dict_sql_query := PStr "";
       dict_explanation :=
         PStr "Error parsing LLM response: Take it from the orders table...." |}
  /\ contains "FROM" (upper "Take it from the orders table.") = true.
Proof.
  split; [|reflexivity].
  refine (proj1 (no_select_is_parse_error Scripted.loads
                   "Take it from the orders table." eq_refl _ _ eq_refl)).
  - intros d H. vm_compute in H. discriminate.
  - intros d H. vm_compute in H. discriminate.
Defined.

Lemma only_objects_are_rejected_witness :
  exists m,
    In m [Method1; Method3; Method4]
    /\ run_method Scripted.loads m (strip Scripted.null_object)
       = Returns (_extract_sql_from_response Scripted.loads
                    Scripted.null_object).
Proof.
  refine (only_objects_are_rejected Scripted.loads Scripted.strict
            Scripted.null_object ValidationError eq_refl).
Defined.

End Extraction.

(* ===================================================================== *)
(** ** The endpoint fails: from [get_completion] to [process_query] *)
(* ===================================================================== *)

Module Pipeline.
Import PyStr PyVal Models World SQLAgent.

Section Calls.
Context {E : Env}.

Lemma while_loop_break self nq st m st' m' :
  (attempts st < max_retries self)%Z ->
  loop_body self nq st m = (Ok (Break st'), m') ->
  while_loop self nq st m = (Ok st', m').
Proof.
  revert st' m'.
  funelim (while_loop self nq st m); intros st'' mm Hlt Hb.
  - match goal with Hc : (_ <? _)%Z = false |- _ =>
      pose proof (proj1 (Z.ltb_ge _ _) Hc); lia end.
  - congruence.
  - congruence.
  - congruence.
Qed.

(** X16.  When the request for the first generation fails at the
    endpoint, [process_query] raises nothing and does not query the
    database: it returns a response with empty generated SQL, the error
    "Could not generate SQL query", and the explanation "Failed to generate
    SQL: Error generating SQL: Error communicating with LLM API: " followed
    by the text of the failure. *)
Theorem endpoint_failure_is_reported (self : SQLAgent.t)
    (natural_query : string) (w w' : world) (msg : string) :
  http_post w (GeneratePrompt natural_query (schema_info self) None)
  = (RequestException msg, w') ->
  let text :=
    "Error generating SQL: Error communicating with LLM API: " ++ msg in
  run self natural_query w
  = (Ok {| SQLAgentResponse.natural_query := natural_query;
           SQLAgentResponse.generated_sql := "";
           SQLAgentResponse.explanation := "Failed to generate SQL: " ++ text;
           SQLAgentResponse.query_result := None;
           SQLAgentResponse.error := Some "Could not generate SQL query";
           SQLAgentResponse.improvement_history := None |},
     {| now := w';
        trace := [Generate
                    (Ok {| SQLGenerationResponse.sql_query := "";
                           SQLGenerationResponse.explanation := text |})] |}).
Proof.
  intros Hpost text.
  unfold run, process_query, bind, generate_sql, traced, construct,
    LLMClient.generate_sql, LLMClient.get_completion.
  cbn [now trace SQLGenerationRequest.query]. rewrite Hpost.
  reflexivity.
Qed.

(** X17.  When the first generation gives SQL, its execution fails in
    the database, and the request for the repair fails at the endpoint,
    [process_query] raises nothing and stops after that one cycle.  The
    response keeps the first SQL and its explanation, carries the error
    "SQL execution error: " and the database's text, and has the one record
    of that failure; the repair was asked with that same error text, and
    the text of the endpoint's failure is not in the response. *)
Theorem repair_failure_keeps_error (self : SQLAgent.t)
    (natural_query : string) (w w1 w2 w3 : world)
    (content sql expl msg fail : string) :
  (0 < max_retries self)%Z ->
  http_post w (GeneratePrompt natural_query (schema_info self) None)
  = (Content content, w1) ->
  LLMClient._extract_sql_from_response json_loads content
  = {| LLMClient.dict_sql_query := PStr sql;
       LLMClient.dict_explanation := PStr expl |} ->
  sql <> "" ->
  cursor_run w1 sql = (DbError msg, w2) ->
  let error := "SQL execution error: " ++ msg in
  http_post w2 (ImprovePrompt natural_query (schema_info self) sql error)
  = (RequestException fail, w3) ->
  let record := {| SQLImprovementAttempt.attempt := 1;
                   SQLImprovementAttempt.sql := sql;
                   SQLImprovementAttempt.error := error |} in
  run self natural_query w
  = (Ok {| SQLAgentResponse.natural_query := natural_query;
           SQLAgentResponse.generated_sql := sql;
           SQLAgentResponse.explanation := expl;
           SQLAgentResponse.query_result := None;
           SQLAgentResponse.error := Some error;
           SQLAgentResponse.improvement_history := Some [record] |},
     {| now := w3;
        trace :=
          [Generate (Ok {| SQLGenerationResponse.sql_query := sql;
                           SQLGenerationResponse.explanation := expl |});
           Execute sql (Ok (None, Some error));
           Append record;
           Improve sql error
             (Ok {| SQLGenerationResponse.sql_query := "";
                    SQLGenerationResponse.explanation :=
                      "Error improving SQL: "
                      ++ "Error communicating with LLM API: " ++ fail |})] |}).
Proof.
  intros Hbudget Hpost Hextract Hsql Hrun error Hrepair record.
  unfold run, process_query, bind at 1, generate_sql, traced, construct,
    LLMClient.generate_sql, LLMClient.get_completion.
  cbn [now trace SQLGenerationRequest.query]. rewrite Hpost, Hextract.
  cbn [LLMClient.dict_sql_query LLMClient.dict_explanation
       make_generation_response str_field
       SQLGenerationResponse.sql_query SQLGenerationResponse.explanation
       now trace app].
  apply Sound.is_empty_false in Hsql. rewrite Hsql.
  unfold bind.
  match goal with |- context [while_loop ?s ?q ?st ?m] =>
    assert (Hbody :
      loop_body s q st m
      = (Ok (Break {| attempts := 0;
                      current_sql := sql;
                      current_explanation := expl;
                      result := None;
                      SQLAgent.error := Some error;
                      improvement_history := [record] |}),
         {| now := w3;
            trace :=
              [Generate (Ok {| SQLGenerationResponse.sql_query := sql;
                               SQLGenerationResponse.explanation := expl |});
               Execute sql (Ok (None, Some error));
               Append record;
               Improve sql error
                 (Ok {| SQLGenerationResponse.sql_query := "";
                        SQLGenerationResponse.explanation :=
                          "Error improving SQL: "
                          ++ "Error communicating with LLM API: "
                          ++ fail |})] |}))
  end.
  { unfold loop_body, bind, execute_sql, improve_sql, traced, log, construct,
      LLMClient.improve_sql, LLMClient.get_completion, ret.
    cbn [now trace current_sql assign_execution]. rewrite Hrun.
    unfold record, error in Hrepair |- *.
    cbn in Hrepair |- *. rewrite Hrepair.
    reflexivity. }
  erewrite while_loop_break; revgoals.
  - exact Hbody.
  - exact Hbudget.
  - reflexivity.
Qed.

End Calls.

Lemma endpoint_failure_is_reported_witness :
  exists r m,
    @run Scripted.env (Scripted.agent 3) Scripted.question Scripted.offline
    = (Ok r, m)
    /\ SQLAgentResponse.error r = Some "Could not generate SQL query"
    /\ trace m = [Generate (Ok {| SQLGenerationResponse.sql_query := "";
                                  SQLGenerationResponse.explanation :=
                                    "Error generating SQL: Error communicating with LLM API: connection refused" |})].
Proof.
  do 2 eexists. split.
  - exact (@endpoint_failure_is_reported Scripted.env (Scripted.agent 3)
             Scripted.question Scripted.offline Scripted.offline
             "connection refused" eq_refl).
  - split; reflexivity.
Defined.

Lemma repair_failure_keeps_error_witness :
  exists r m,
    @run Scripted.env (Scripted.agent 3) Scripted.question Scripted.cut_off
    = (Ok r, m)
    /\ SQLAgentResponse.generated_sql r = "SELECT * FROM custmers"
    /\ SQLAgentResponse.error r
       = Some "SQL execution error: no such table: custmers".
Proof.
  do 2 eexists. split.
  - refine (@repair_failure_keeps_error Scripted.env (Scripted.agent 3)
              Scripted.question Scripted.cut_off
              {| Scripted.replies := [];
                 Scripted.answers := [DbError "no such table: custmers"] |}
              {| Scripted.replies := []; Scripted.answers := [] |}
              {| Scripted.replies := []; Scripted.answers := [] |}
              "SELECT * FROM custmers;" "SELECT * FROM custmers"
              "Extracted SQL query from text" "no such table: custmers"
              "connection refused" _ eq_refl eq_refl _ eq_refl eq_refl).
    + simpl. lia.
    + discriminate.
  - split; reflexivity.
Defined.

End Pipeline.
